(** * go-topo: layered topological sort of a dependency graph

    A shallow embedding of [Graph], [AddNode] and [SortByLayers] of
    package [topo], and the properties of the layering they compute.

    Go maps are modelled as [gmap]s.  A [map[T]bool] read at an absent key
    yields [false]; [isSet] is that read.  The order in which a [range]
    loop visits the keys of a map is not fixed by the language: it is a
    parameter of the model (an [order] function that permutes the list of
    keys), one per [range] loop of the source. *)

From stdpp Require Import base option list gmap strings.

(** The only error of the package. *)
Inductive error : Set := ErrCyclicDependency.

Section Topo.
Context {T : Type} `{Countable T}.

(** ** Data model *)

Record node : Type := mkNode { value : T; deps : list T }.

Record Graph : Type := mkGraph { nodes : list node }.

(** Methods with a pointer receiver are state transformers on [Graph]. *)
Definition method (A : Type) : Type := Graph → A * Graph.

Definition emptyGraph : Graph := mkGraph [].

(** [g.nodes = append(g.nodes, node{value, deps})] *)
Definition AddNode (v : T) (ds : list T) : method unit :=
  λ g, (tt, mkGraph (nodes g ++ [mkNode v ds])).

(** The three maps built by the first loop of [SortByLayers]. *)
Record index : Type := mkIndex {
  dependsOn : gmap T (list T);
  dependedOnBy : gmap T (list T);
  allValues : gmap T bool
}.

Definition emptyIndex : index := mkIndex ∅ ∅ ∅.

(** Reading a [map[T]bool]: the zero value at an absent key. *)
Definition isSet (m : gmap T bool) (k : T) : bool := default false (m !! k).

(** Reading a [map[T][]T]: the nil slice at an absent key. *)
Definition listAt (m : gmap T (list T)) (k : T) : list T := default [] (m !! k).

(** Inner loop of the build: one [dep] of the node [v]. *)
Definition addDep (v : T) (ix : index) (dep : T) : index :=
  mkIndex (dependsOn ix)
          (<[dep := listAt (dependedOnBy ix) dep ++ [v]]> (dependedOnBy ix))
          (<[dep := true]> (allValues ix)).

(** Outer loop of the build: one recorded node. *)
Definition addEntry (ix : index) (n : node) : index :=
  foldl (addDep (value n))
        (mkIndex (<[value n := deps n]> (dependsOn ix))
                 (dependedOnBy ix)
                 (<[value n := true]> (allValues ix)))
        (deps n).

Definition buildIndex (ns : list node) : index := foldl addEntry emptyIndex ns.

(** The keys of [allValues], in the map's own enumeration order; a
    [range] loop sees them permuted by its [order]. *)
Definition keys (m : gmap T bool) : list T := (map_to_list m).*1.

(** [!exists || len(deps) == 0] *)
Definition noDeps (ix : index) (v : T) : bool :=
  match dependsOn ix !! v with
  | None => true
  | Some ds => Nat.eqb (length ds) 0
  end.

(** The first layer: the values without dependencies, in visiting order. *)
Definition firstLayer (order : list T → list T) (ix : index) : list T :=
  foldl (λ cur v, if noDeps ix v then cur ++ [v] else cur) []
        (order (keys (allValues ix))).

(** [for _, value := range currentLayer { visited[value] = true }] *)
Definition markVisited (cur : list T) (visited : gmap T bool) : gmap T bool :=
  foldl (λ m v, <[v := true]> m) visited cur.

(** The loop over [dependsOn[dependent]] with its [break]. *)
Definition allDepsVisited (ix : index) (visited : gmap T bool) (d : T) : bool :=
  forallb (isSet visited) (listAt (dependsOn ix) d).

(** Body of the loop over [dependedOnBy[value]]; the state is
    [(nextLayer, layerDepMap)]. *)
Definition consider (ix : index) (visited : gmap T bool)
    (st : list T * gmap T bool) (d : T) : list T * gmap T bool :=
  if isSet visited d || isSet st.2 d then st
  else if allDepsVisited ix visited d
       then (st.1 ++ [d], <[d := true]> st.2)
       else st.

Definition scan (ix : index) (visited : gmap T bool)
    (st : list T * gmap T bool) (v : T) : list T * gmap T bool :=
  foldl (consider ix visited) st (listAt (dependedOnBy ix) v).

Definition nextLayer (ix : index) (visited : gmap T bool) (cur : list T) : list T :=
  (foldl (scan ix visited) ([], ∅) cur).1.

(** [for len(currentLayer) > 0 { ... }], bounded by [fuel] iterations;
    [None] when the bound is reached before the loop ends. *)
Fixpoint peel (fuel : nat) (ix : index) (cur : list T)
    (visited : gmap T bool) (result : list (list T))
    : option (list (list T) * gmap T bool) :=
  match cur with
  | [] => Some (result, visited)
  | _ :: _ =>
      match fuel with
      | O => None
      | S fuel' =>
          let result' := result ++ [cur] in
          let visited' := markVisited cur visited in
          peel fuel' ix (nextLayer ix visited' cur) visited' result'
      end
  end.

(** The final loop: some value is unvisited and has a non-empty
    [dependsOn] entry. *)
Definition stuck (ix : index) (visited : gmap T bool) (v : T) : bool :=
  negb (isSet visited v) &&
  match dependsOn ix !! v with
  | Some ds => Nat.ltb 0 (length ds)
  | None => false
  end.

Definition cycleCheck (order : list T → list T) (ix : index)
    (visited : gmap T bool) : bool :=
  existsb (stuck ix visited) (order (keys (allValues ix))).

(** What [SortByLayers] returns: the layers and the error. *)
Definition outcome : Type := list (list T) * option error.

(** The body of [SortByLayers] on the recorded nodes.  Every layer holds
    at least one value not visited before, so [size allValues] iterations
    are enough ([sortNodes_total]). *)
Definition sortNodes (order1 order2 : list T → list T) (ns : list node)
    : option outcome :=
  let ix := buildIndex ns in
  match peel (size (allValues ix)) ix (firstLayer order1 ix) ∅ [] with
  | None => None
  | Some (result, visited) =>
      if cycleCheck order2 ix visited
      then Some ([], Some ErrCyclicDependency)
      else Some (result, None)
  end.

Definition SortByLayers (order1 order2 : list T → list T)
    : method (option outcome) :=
  λ g, (sortNodes order1 order2 (nodes g), g).

(** A [range] order visits every key once. *)
Definition rangeOrder (order : list T → list T) : Prop :=
  ∀ l, order l ≡ₚ l.

(** A recorded dependency edge. *)
Definition edge (ns : list node) (dependent prerequisite : T) : Prop :=
  ∃ n, n ∈ ns ∧ value n = dependent ∧ prerequisite ∈ deps n.

(** The identities of a graph: explicit nodes and dependency targets. *)
Definition identity (ns : list node) (x : T) : Prop :=
  ∃ n, n ∈ ns ∧ (value n = x ∨ x ∈ deps n).

(** ** Predicates used to state and prove the properties *)

(** A dependent is admitted when it is unvisited and every entry of its
    [dependsOn] list is visited. *)
Definition eligible (ix : index) (visited : gmap T bool) (d : T) : Prop :=
  isSet visited d = false ∧ allDepsVisited ix visited d = true.

(** [layerDepMap] holds exactly the values of [nextLayer]. *)
Definition coherent (st : list T * gmap T bool) : Prop :=
  NoDup st.1 ∧ ∀ x, isSet st.2 x = true ↔ x ∈ st.1.

(** The invariant of the peeling loop.

    [first] is the layer the loop started from; [cur], [visited] and
    [result] are the loop variables at the head of an iteration. *)
Record Inv (ns : list node) (first cur : list T) (visited : gmap T bool)
    (result : list (list T)) : Prop := {
  inv_vis : ∀ x, isSet visited x = true ↔ x ∈ concat result;
  inv_nodup : NoDup (concat result ++ cur);
  inv_dom : ∀ x, x ∈ concat result ++ cur →
    is_Some (allValues (buildIndex ns) !! x);
  inv_nonempty : Forall (λ l, l ≠ []) result;
  inv_head : head (result ++ [cur]) = Some first;
  inv_order : ∀ i li x d, result !! i = Some li → x ∈ li →
    d ∈ listAt (dependsOn (buildIndex ns)) x → d ∈ concat (take i result);
  inv_order_cur : ∀ x d, x ∈ cur →
    d ∈ listAt (dependsOn (buildIndex ns)) x → d ∈ concat result;
  inv_tight : ∀ i li x, result !! S i = Some li → x ∈ li →
    ∃ lp p, result !! i = Some lp ∧ p ∈ lp
            ∧ p ∈ listAt (dependsOn (buildIndex ns)) x;
  inv_tight_cur : ∀ lp x, last result = Some lp → x ∈ cur →
    ∃ p, p ∈ lp ∧ p ∈ listAt (dependsOn (buildIndex ns)) x;
  inv_max : ∀ x, is_Some (allValues (buildIndex ns) !! x) →
    isSet visited x = false →
    (∀ d, d ∈ listAt (dependsOn (buildIndex ns)) x → d ∈ concat result) →
    x ∈ cur
}.

(** Two runs of the loop from rearranged layers agree on the visited map
    and, layer by layer, up to rearrangement. *)
Definition sameRuns (a b : option (list (list T) * gmap T bool)) : Prop :=
  match a, b with
  | Some (r, v), Some (r', v') => Forall2 (≡ₚ) r r' ∧ v = v'
  | None, None => True
  | _, _ => False
  end.

(** Two outcomes with the same error and, layer by layer, the same values. *)
Definition sameOutcome (a b : option outcome) : Prop :=
  match a, b with
  | Some out, Some out' => out.2 = out'.2 ∧ Forall2 (≡ₚ) out.1 out'.1
  | None, None => True
  | _, _ => False
  end.

(** ** The dependencies the sort enforces *)

(** [d] is an entry of the list [dependsOn] keeps for [x]. *)
Definition kept (ns : list node) (x d : T) : Prop :=
  d ∈ listAt (dependsOn (buildIndex ns)) x.

(** ** The checker of the example tests

    [validateLayerDependencies] reports through [t.Errorf], which records
    a message and lets the function go on; the model returns the reports
    in the order they are made.  A report holds the arguments of its
    format string. *)
Inductive report : Type :=
  | NodeNotFound (nd : T)
  | DependencyNotFound (dep nd : T)
  | DependencyViolation (nd : T) (ndLayer : nat) (dep : T) (depLayer : nat).

(** [for i, layer := range layers { for _, node := range layer {
    nodeLayer[node] = i } }], from the index [i] on. *)
Fixpoint indexLayers (i : nat) (layers : list (list T)) (nodeLayer : gmap T nat)
    : gmap T nat :=
  match layers with
  | [] => nodeLayer
  | layer :: rest =>
      indexLayers (S i) rest (foldl (λ m nd, <[nd := i]> m) nodeLayer layer)
  end.

(** Body of the loop over [deps]. *)
Definition checkDep (nodeLayer : gmap T nat) (nd : T) (nodeLayerIndex : nat)
    (log : list report) (dep : T) : list report :=
  match nodeLayer !! dep with
  | None => log ++ [DependencyNotFound dep nd]
  | Some depLayerIndex =>
      if nodeLayerIndex <=? depLayerIndex
      then log ++ [DependencyViolation nd (nodeLayerIndex + 1) dep (depLayerIndex + 1)]
      else log
  end.

(** Body of the loop over [dependencies]. *)
Definition checkNode (nodeLayer : gmap T nat) (log : list report)
    (entry : T * list T) : list report :=
  match nodeLayer !! entry.1 with
  | None => log ++ [NodeNotFound entry.1]
  | Some nodeLayerIndex => foldl (checkDep nodeLayer entry.1 nodeLayerIndex) log entry.2
  end.

Definition validateLayerDependencies
    (order : list (T * list T) → list (T * list T))
    (layers : list (list T)) (dependencies : gmap T (list T)) : list report :=
  foldl (checkNode (indexLayers 0 layers ∅)) [] (order (map_to_list dependencies)).

(** Two indexes the sort cannot tell apart: the same [dependsOn] and
    [allValues], and [dependedOnBy] lists with the same members. *)
Definition sameIndex (ix ix' : index) : Prop :=
  dependsOn ix = dependsOn ix'
  ∧ allValues ix = allValues ix'
  ∧ ∀ k x, x ∈ listAt (dependedOnBy ix) k ↔ x ∈ listAt (dependedOnBy ix') k.

(** [k] is the index of the last layer holding [x]. *)
Definition lastLayer (layers : list (list T)) (x : T) (k : nat) : Prop :=
  (∃ l, layers !! k = Some l ∧ x ∈ l) ∧ x ∉ concat (drop (S k) layers).

(** What a dependency, and an entry of [dependencies], must satisfy for
    the checker to make no report. *)
Definition depOk (nodeLayer : gmap T nat) (nodeLayerIndex : nat) (dep : T) : Prop :=
  ∃ depLayerIndex, nodeLayer !! dep = Some depLayerIndex
                   ∧ depLayerIndex < nodeLayerIndex.

Definition entryOk (nodeLayer : gmap T nat) (entry : T * list T) : Prop :=
  ∃ nodeLayerIndex, nodeLayer !! entry.1 = Some nodeLayerIndex
    ∧ ∀ dep, dep ∈ entry.2 → depOk nodeLayer nodeLayerIndex dep.

(** [x] is in the layer of index [i]. *)
Definition inLayer (layers : list (list T)) (i : nat) (x : T) : Prop :=
  ∃ l, layers !! i = Some l ∧ x ∈ l.

End Topo.

Arguments node : clear implicits.
Arguments Graph : clear implicits.
Arguments index T {_ _} .
Arguments outcome : clear implicits.
Arguments report : clear implicits.

(** Running a sequence of [AddNode] calls on the zero [Graph]. *)
Definition build {T} (l : list (T * list T)) : Graph T :=
  foldl (λ g p, (AddNode p.1 p.2 g).2) emptyGraph l.

(** ** Graphs of the test suite, and graphs with a repeated value *)

(** "simple linear dependencies" *)
Definition chainGraph : Graph string :=
  build [("A", []); ("B", ["A"]); ("C", ["B"])]%string.

(** "complex dependencies" *)
Definition mixedGraph : Graph string :=
  build [("A", []); ("B", []); ("C", ["A"]); ("D", ["B"]);
         ("E", ["C"; "D"]); ("F", ["A"])]%string.

(** "cyclic dependencies" *)
Definition cyclicGraph : Graph string :=
  build [("A", ["C"]); ("B", ["A"]); ("C", ["B"])]%string.

(** [X] added with the dependency [B], then again with none. *)
Definition readdedGraph : Graph string :=
  build [("X", ["B"]); ("X", [])]%string.

(** A cycle between [A] and [B], then [A] added again with no dependency. *)
Definition maskedCycleGraph : Graph string :=
  build [("A", ["B"]); ("B", ["A"]); ("A", [])]%string.

(** [A] depending on itself, then added again with no dependency. *)
Definition maskedSelfGraph : Graph string :=
  build [("A", ["A"]); ("A", [])]%string.

(** [X] added with the list [B], then with the list [A]; [B] depends on [A]. *)
Definition twoListsGraph : Graph string :=
  build [("X", ["B"]); ("X", ["A"]); ("B", ["A"])]%string.

(** Two nodes and no dependency. *)
Definition looseGraph : Graph string :=
  build [("A", []); ("B", [])]%string.

(** The nodes of "complex dependencies", added in the opposite order. *)
Definition mixedGraphReversed : Graph string :=
  mkGraph (reverse (nodes mixedGraph)).

(** * Properties *)

Section Proofs.
Context {T : Type} `{Countable T}.
Implicit Types (ns : list (node T)) (ix : index T) (v d x : T).
Implicit Types (cur ds : list T) (visited : gmap T bool).

(** ** Map reads *)

Lemma elem_of_keys (m : gmap T bool) x : x ∈ keys m ↔ is_Some (m !! x).
Proof.
  unfold keys. rewrite list_elem_of_fmap. split.
  - intros [[k b] [-> Hin]]. apply elem_of_map_to_list in Hin. by exists b.
  - intros [b Hb]. exists (x, b). split; [done|]. by apply elem_of_map_to_list.
Qed.

Lemma NoDup_keys (m : gmap T bool) : NoDup (keys m).
Proof. apply NoDup_fst_map_to_list. Qed.

Lemma length_keys (m : gmap T bool) : length (keys m) = size m.
Proof. unfold keys. by rewrite length_fmap, length_map_to_list. Qed.

(** ** The build loop *)

Lemma addDeps_dependsOn v ds ix :
  dependsOn (foldl (addDep v) ix ds) = dependsOn ix.
Proof. revert ix. induction ds as [|d ds IH]; intros ix; simpl; [done|by rewrite IH]. Qed.

Lemma addDeps_allValues v ds ix x :
  is_Some (allValues (foldl (addDep v) ix ds) !! x)
  ↔ x ∈ ds ∨ is_Some (allValues ix !! x).
Proof.
  revert ix. induction ds as [|d ds IH]; intros ix; simpl.
  - rewrite elem_of_nil. tauto.
  - rewrite IH, elem_of_cons. simpl. rewrite lookup_insert.
    case_decide; subst; split; intros; try tauto; eauto.
    destruct H1 as [[->|?]|?]; eauto. congruence.
Qed.

Lemma addDeps_dependedOnBy v ds ix k x :
  x ∈ listAt (dependedOnBy (foldl (addDep v) ix ds)) k
  ↔ x ∈ listAt (dependedOnBy ix) k ∨ (x = v ∧ k ∈ ds).
Proof.
  revert ix. induction ds as [|d ds IH]; intros ix; simpl.
  - rewrite elem_of_nil. tauto.
  - rewrite IH, elem_of_cons. simpl. unfold listAt at 1.
    rewrite lookup_insert. case_decide; subst; simpl.
    + rewrite elem_of_app, list_elem_of_singleton. tauto.
    + fold (listAt (dependedOnBy ix) k). intuition congruence.
Qed.

Lemma buildIndex_snoc ns n :
  buildIndex (ns ++ [n]) = addEntry (buildIndex ns) n.
Proof. unfold buildIndex. by rewrite foldl_snoc. Qed.

Lemma addEntry_dependsOn ix n :
  dependsOn (addEntry ix n) = <[value n := deps n]> (dependsOn ix).
Proof. unfold addEntry. by rewrite addDeps_dependsOn. Qed.

(** The entry of [dependsOn] is the list of the last node recorded for the
    value: an assignment, not an append. *)
Lemma dependsOn_last ns n ns' :
  (∀ n', n' ∈ ns' → value n' ≠ value n) →
  dependsOn (buildIndex (ns ++ n :: ns')) !! value n = Some (deps n).
Proof.
  induction ns' as [|m ns' IH] using rev_ind; intros Hlast.
  - rewrite buildIndex_snoc, addEntry_dependsOn. by rewrite lookup_insert_eq.
  - rewrite app_comm_cons, app_assoc, buildIndex_snoc, addEntry_dependsOn.
    rewrite lookup_insert_ne.
    + apply IH. intros n' Hn'. apply Hlast. rewrite elem_of_app. by left.
    + apply Hlast. rewrite elem_of_app, list_elem_of_singleton. by right.
Qed.

Lemma dependsOn_Some ns x ds :
  dependsOn (buildIndex ns) !! x = Some ds →
  ∃ n, n ∈ ns ∧ value n = x ∧ deps n = ds.
Proof.
  induction ns as [|n ns IH] using rev_ind.
  - simpl. by rewrite lookup_empty.
  - rewrite buildIndex_snoc, addEntry_dependsOn, lookup_insert.
    case_decide as Hx.
    + intros [= <-]. exists n. rewrite elem_of_app, list_elem_of_singleton. auto.
    + intros Hs. destruct (IH Hs) as (m & ? & ? & ?). exists m.
      rewrite elem_of_app. auto.
Qed.

Lemma dependsOn_None ns x :
  dependsOn (buildIndex ns) !! x = None ↔ ∀ n, n ∈ ns → value n ≠ x.
Proof.
  induction ns as [|n ns IH] using rev_ind.
  - simpl. rewrite lookup_empty. split; [|done]. intros _ n Hn. by apply elem_of_nil in Hn.
  - rewrite buildIndex_snoc, addEntry_dependsOn, lookup_insert.
    case_decide as Hx; split.
    + done.
    + intros Hall. exfalso. apply (Hall n); [|done].
      rewrite elem_of_app, list_elem_of_singleton. auto.
    + intros Hn m. rewrite elem_of_app, list_elem_of_singleton.
      intros [Hm| ->]; [by apply IH|done].
    + intros Hall. apply IH. intros m Hm. apply Hall. rewrite elem_of_app. auto.
Qed.

Lemma allValues_identity ns x :
  is_Some (allValues (buildIndex ns) !! x) ↔ identity ns x.
Proof.
  unfold identity. induction ns as [|n ns IH] using rev_ind.
  - simpl. rewrite lookup_empty. split.
    + by intros [? ?].
    + intros (n & Hn & _). by apply elem_of_nil in Hn.
  - rewrite buildIndex_snoc. unfold addEntry. rewrite addDeps_allValues. simpl.
    rewrite lookup_insert. split.
    + intros [Hd|Hs].
      * exists n. rewrite elem_of_app, list_elem_of_singleton. auto.
      * case_decide as Hx.
        -- exists n. rewrite elem_of_app, list_elem_of_singleton. auto.
        -- apply IH in Hs as (m & ? & ?). exists m. rewrite elem_of_app. auto.
    + intros (m & Hm & Hx). apply elem_of_app in Hm as [Hm|Hm].
      * right. case_decide; [by eexists|]. apply IH. eauto.
      * apply list_elem_of_singleton in Hm as ->. destruct Hx as [->|?]; [|by left].
        right. case_decide; [by eexists|done].
Qed.

Lemma dependedOnBy_edge ns k x :
  x ∈ listAt (dependedOnBy (buildIndex ns)) k ↔ edge ns x k.
Proof.
  unfold edge. induction ns as [|n ns IH] using rev_ind.
  - unfold listAt. simpl. rewrite lookup_empty. simpl. split.
    + intros Hx. by apply elem_of_nil in Hx.
    + intros (n & Hn & _). by apply elem_of_nil in Hn.
  - rewrite buildIndex_snoc. unfold addEntry. rewrite addDeps_dependedOnBy. simpl.
    rewrite IH. split.
    + intros [(m & ? & ? & ?)|[-> Hk]].
      * exists m. rewrite elem_of_app. auto.
      * exists n. rewrite elem_of_app, list_elem_of_singleton. auto.
    + intros (m & Hm & Hv & Hk). apply elem_of_app in Hm as [Hm|Hm].
      * left. eauto.
      * apply list_elem_of_singleton in Hm as ->. auto.
Qed.

(** ** The first layer *)

Lemma firstLayer_filter order ix :
  firstLayer order ix
  = filter (λ v, noDeps ix v = true) (order (keys (allValues ix))).
Proof.
  unfold firstLayer.
  assert (Hgen : ∀ l acc,
    foldl (λ cur v, if noDeps ix v then cur ++ [v] else cur) acc l
    = acc ++ filter (λ v, noDeps ix v = true) l).
  { induction l as [|v l IH]; intros acc; simpl.
    - by rewrite app_nil_r.
    - rewrite IH. destruct (noDeps ix v) eqn:Hv.
      + rewrite filter_cons_True by done. by rewrite <- app_assoc.
      + rewrite filter_cons_False by congruence. done. }
  apply Hgen.
Qed.

Lemma elem_of_firstLayer order ix x :
  rangeOrder order →
  x ∈ firstLayer order ix ↔ is_Some (allValues ix !! x) ∧ noDeps ix x = true.
Proof.
  intros Ho. rewrite firstLayer_filter, list_elem_of_filter, (Ho _), elem_of_keys.
  tauto.
Qed.

Lemma NoDup_firstLayer order ix : rangeOrder order → NoDup (firstLayer order ix).
Proof.
  intros Ho. rewrite firstLayer_filter. apply NoDup_filter.
  rewrite (Ho _). apply NoDup_keys.
Qed.

(** ** Marking a layer visited *)

Lemma lookup_markVisited cur visited x :
  markVisited cur visited !! x
  = if decide (x ∈ cur) then Some true else visited !! x.
Proof.
  unfold markVisited. revert visited.
  induction cur as [|v cur IH]; intros visited; cbn [foldl].
  - case_decide as Hx; [by apply elem_of_nil in Hx|done].
  - rewrite IH. destruct (decide (x ∈ cur)) as [Hc|Hc].
    + rewrite decide_True; [done|by right].
    + rewrite lookup_insert. destruct (decide (v = x)) as [->|Hne].
      * rewrite decide_True; [done|by left].
      * rewrite decide_False; [done|]. intros [?|?]%elem_of_cons; congruence.
Qed.

Lemma isSet_markVisited cur visited x :
  isSet (markVisited cur visited) x = true ↔ x ∈ cur ∨ isSet visited x = true.
Proof.
  unfold isSet. rewrite lookup_markVisited. case_decide; simpl; [tauto|].
  tauto.
Qed.

Lemma markVisited_perm cur cur' visited :
  cur ≡ₚ cur' → markVisited cur visited = markVisited cur' visited.
Proof.
  intros Hp. apply map_eq. intros x. rewrite !lookup_markVisited.
  repeat case_decide; try done.
  - rewrite Hp in *. done.
  - rewrite <- Hp in *. done.
Qed.

(** ** The next layer *)

Lemma coherent_init : coherent (([], ∅) : list T * gmap T bool).
Proof.
  split; [constructor|]. intros x. unfold isSet. simpl. rewrite lookup_empty.
  simpl. split; [done|]. intros Hx. by apply elem_of_nil in Hx.
Qed.

Lemma consider_spec ix visited st d :
  coherent st →
  coherent (consider ix visited st d) ∧
  ∀ x, x ∈ (consider ix visited st d).1
       ↔ x ∈ st.1 ∨ (x = d ∧ eligible ix visited d).
Proof.
  intros [Hnd Hco]. unfold consider, eligible.
  destruct (isSet visited d) eqn:Hv; simpl.
  { split; [done|]. intros x. intuition congruence. }
  destruct (isSet st.2 d) eqn:Hl; simpl.
  { split; [done|]. intros x. split; [auto|]. intros [?|[-> _]]; [done|].
    by apply Hco. }
  destruct (allDepsVisited ix visited d) eqn:Ha; simpl.
  - split.
    + split; simpl.
      * apply NoDup_app. split; [done|]. split; [|apply NoDup_singleton].
        intros x Hx Hd. apply list_elem_of_singleton in Hd as ->.
        apply Hco in Hx. congruence.
      * intros x. rewrite elem_of_app, list_elem_of_singleton. unfold isSet.
        rewrite lookup_insert. case_decide; subst; simpl; [tauto|].
        fold (isSet st.2 x). rewrite Hco. intuition congruence.
    + intros x. rewrite elem_of_app, list_elem_of_singleton. tauto.
  - split; [done|]. intros x. intuition congruence.
Qed.

Lemma considers_spec ix visited l st :
  coherent st →
  coherent (foldl (consider ix visited) st l) ∧
  ∀ x, x ∈ (foldl (consider ix visited) st l).1
       ↔ x ∈ st.1 ∨ (x ∈ l ∧ eligible ix visited x).
Proof.
  revert st. induction l as [|d l IH]; intros st Hst; simpl.
  - split; [done|]. intros x. rewrite elem_of_nil. tauto.
  - destruct (consider_spec ix visited st d Hst) as [Hc Hm].
    destruct (IH _ Hc) as [Hc' Hm']. split; [done|].
    intros x. rewrite Hm', Hm, elem_of_cons. split.
    + intros [[?|[-> ?]]|[? ?]]; auto.
    + intros [?|[[->|?] ?]]; auto.
Qed.

Lemma scans_spec ix visited cur st :
  coherent st →
  coherent (foldl (scan ix visited) st cur) ∧
  ∀ x, x ∈ (foldl (scan ix visited) st cur).1
       ↔ x ∈ st.1 ∨ (∃ v, v ∈ cur ∧ x ∈ listAt (dependedOnBy ix) v
                           ∧ eligible ix visited x).
Proof.
  revert st. induction cur as [|v cur IH]; intros st Hst; simpl.
  - split; [done|]. intros x. split; [auto|]. intros [?|(v & Hv & _)]; [done|].
    by apply elem_of_nil in Hv.
  - unfold scan at 2.
    destruct (considers_spec ix visited (listAt (dependedOnBy ix) v) st Hst)
      as [Hc Hm].
    destruct (IH _ Hc) as [Hc' Hm']. split; [done|].
    intros x. rewrite Hm', Hm. split.
    + intros [[?|[? ?]]|(w & ? & ? & ?)]; auto.
      * right. exists v. split; [by left|done].
      * right. exists w. split; [by right|done].
    + intros [?|(w & Hw & ? & ?)]; auto.
      apply elem_of_cons in Hw as [->|?]; [auto|]. right. eauto.
Qed.

Lemma elem_of_nextLayer ix visited cur x :
  x ∈ nextLayer ix visited cur
  ↔ ∃ v, v ∈ cur ∧ x ∈ listAt (dependedOnBy ix) v ∧ eligible ix visited x.
Proof.
  unfold nextLayer.
  destruct (scans_spec ix visited cur _ coherent_init) as [_ Hm].
  rewrite Hm. simpl. rewrite elem_of_nil. tauto.
Qed.

Lemma NoDup_nextLayer ix visited cur : NoDup (nextLayer ix visited cur).
Proof.
  unfold nextLayer.
  by destruct (scans_spec ix visited cur _ coherent_init) as [[? _] _].
Qed.

Lemma nextLayer_perm ix visited cur cur' :
  cur ≡ₚ cur' → nextLayer ix visited cur ≡ₚ nextLayer ix visited cur'.
Proof.
  intros Hp. apply NoDup_Permutation; try apply NoDup_nextLayer.
  intros x. rewrite !elem_of_nextLayer.
  split; intros (v & Hv & ?); exists v; (split; [|done]).
  - by rewrite <- Hp.
  - by rewrite Hp.
Qed.

(** ** Links between the three maps *)

Lemma noDeps_listAt ix x : noDeps ix x = true ↔ listAt (dependsOn ix) x = [].
Proof.
  unfold noDeps, listAt. destruct (dependsOn ix !! x) as [ds|]; simpl; [|done].
  destruct ds; simpl; split; done.
Qed.

Lemma dependsOn_dependedOnBy ns x d :
  d ∈ listAt (dependsOn (buildIndex ns)) x →
  x ∈ listAt (dependedOnBy (buildIndex ns)) d.
Proof.
  unfold listAt at 1.
  destruct (dependsOn (buildIndex ns) !! x) as [ds|] eqn:Hds; simpl.
  - intros Hd. apply dependedOnBy_edge.
    apply dependsOn_Some in Hds as (n & ? & ? & <-). by exists n.
  - intros Hd. by apply elem_of_nil in Hd.
Qed.

Lemma dependedOnBy_allValues ns x d :
  x ∈ listAt (dependedOnBy (buildIndex ns)) d →
  is_Some (allValues (buildIndex ns) !! x).
Proof.
  intros (n & ? & ? & ?)%dependedOnBy_edge. apply allValues_identity.
  exists n. auto.
Qed.

Lemma allDepsVisited_spec ix visited x :
  allDepsVisited ix visited x = true
  ↔ ∀ d, d ∈ listAt (dependsOn ix) x → isSet visited d = true.
Proof.
  unfold allDepsVisited. rewrite forallb_forall.
  split; intros Ha d Hd; apply Ha; by apply list_elem_of_In.
Qed.

Lemma Inv_init ns order :
  rangeOrder order →
  Inv ns (firstLayer order (buildIndex ns)) (firstLayer order (buildIndex ns)) ∅ [].
Proof.
  intros Ho. split; simpl.
  - intros x. unfold isSet. rewrite lookup_empty. simpl. split; [done|].
    intros Hx. by apply elem_of_nil in Hx.
  - by apply NoDup_firstLayer.
  - intros x Hx. by apply (elem_of_firstLayer order) in Hx as [? _].
  - constructor.
  - done.
  - intros i li x d Hi. done.
  - intros x d Hx Hd. apply (elem_of_firstLayer order) in Hx as [_ Hx]; [|done].
    apply noDeps_listAt in Hx. rewrite Hx in Hd. done.
  - intros i li x Hi. done.
  - done.
  - intros x Hx _ Hd. apply elem_of_firstLayer; [done|]. split; [done|].
    apply noDeps_listAt.
    destruct (listAt (dependsOn (buildIndex ns)) x) as [|d l]; [done|].
    exfalso. specialize (Hd d). rewrite elem_of_nil in Hd. apply Hd. by left.
Qed.

Lemma concat_snoc (result : list (list T)) cur :
  concat (result ++ [cur]) = concat result ++ cur.
Proof. rewrite concat_app. simpl. by rewrite app_nil_r. Qed.

Lemma isSet_false_markVisited cur visited x :
  isSet (markVisited cur visited) x = false → (x ∉ cur) ∧ isSet visited x = false.
Proof.
  intros Hf. split.
  - intros Hx. assert (isSet (markVisited cur visited) x = true) as Ht
      by (apply isSet_markVisited; auto). congruence.
  - destruct (isSet visited x) eqn:Hv; [|done].
    assert (isSet (markVisited cur visited) x = true) as Ht
      by (apply isSet_markVisited; auto). congruence.
Qed.

(** Among the dependencies of a value admitted to the next layer, one is
    in the layer just finished: otherwise the value would have been
    admitted before. *)
Lemma next_layer_has_fresh_dep ns first cur visited result x :
  Inv ns first cur visited result →
  is_Some (allValues (buildIndex ns) !! x) →
  eligible (buildIndex ns) (markVisited cur visited) x →
  ∃ p, p ∈ cur ∧ p ∈ listAt (dependsOn (buildIndex ns)) x.
Proof.
  intros HI Hx [Hu Ha].
  apply isSet_false_markVisited in Hu as [Hnc Hu].
  destruct (decide (Exists (λ p, p ∈ cur) (listAt (dependsOn (buildIndex ns)) x)))
    as [He|Hne].
  - apply Exists_exists in He as (p & ? & ?). eauto.
  - exfalso. apply Hnc. apply (inv_max _ _ _ _ _ HI); [done..|].
    intros d Hd. apply (inv_vis _ _ _ _ _ HI).
    rewrite allDepsVisited_spec in Ha. specialize (Ha d Hd).
    apply isSet_markVisited in Ha as [Hc|?]; [|done].
    exfalso. apply Hne. apply Exists_exists. eauto.
Qed.

Lemma Inv_step ns first cur visited result :
  Inv ns first cur visited result → cur ≠ [] →
  Inv ns first
      (nextLayer (buildIndex ns) (markVisited cur visited) cur)
      (markVisited cur visited) (result ++ [cur]).
Proof.
  intros HI Hne.
  assert (Hvis' : ∀ x, isSet (markVisited cur visited) x = true
                       ↔ x ∈ concat result ++ cur).
  { intros x. rewrite isSet_markVisited, elem_of_app, (inv_vis _ _ _ _ _ HI).
    tauto. }
  split.
  - intros x. by rewrite concat_snoc.
  - rewrite concat_snoc. apply NoDup_app. split; [apply HI|].
    split; [|apply NoDup_nextLayer].
    intros x Hx (v & _ & _ & Hu & _)%elem_of_nextLayer.
    apply Hvis' in Hx. congruence.
  - intros x. rewrite concat_snoc, elem_of_app. intros [Hx|Hx].
    + by apply (inv_dom _ _ _ _ _ HI).
    + apply elem_of_nextLayer in Hx as (v & _ & Hx & _).
      by eapply dependedOnBy_allValues.
  - apply Forall_app. split; [apply HI|]. by constructor.
  - rewrite <- (inv_head _ _ _ _ _ HI). by destruct result.
  - intros i li x d Hi Hx Hd. apply lookup_snoc_Some in Hi as [[Hlt Hi]|[-> <-]].
    + rewrite take_app_le by lia. by eapply (inv_order _ _ _ _ _ HI).
    + rewrite take_app_length. by eapply (inv_order_cur _ _ _ _ _ HI).
  - intros x d (v & _ & _ & _ & Ha)%elem_of_nextLayer Hd.
    rewrite concat_snoc. apply Hvis'.
    rewrite allDepsVisited_spec in Ha. by apply Ha.
  - intros i li x Hi Hx. apply lookup_snoc_Some in Hi as [[Hlt Hi]|[Hl <-]].
    + destruct (inv_tight _ _ _ _ _ HI i li x Hi Hx) as (lp & p & Hp & ? & ?).
      exists lp, p. split; [|done]. rewrite lookup_app_l; [done|].
      by eapply lookup_lt_Some.
    + assert (is_Some (result !! i)) as [lp Hlp] by (apply lookup_lt_is_Some; lia).
      assert (last result = Some lp) as Hlast.
      { rewrite last_lookup, <- Hl. done. }
      destruct (inv_tight_cur _ _ _ _ _ HI lp x Hlast Hx) as (p & ? & ?).
      exists lp, p. split; [|done]. rewrite lookup_app_l; [done|].
      by eapply lookup_lt_Some.
  - intros lp x Hlast Hx. rewrite last_snoc in Hlast. injection Hlast as <-.
    apply elem_of_nextLayer in Hx as (v & Hv & Hx & He).
    eapply next_layer_has_fresh_dep; [done| |done].
    by eapply dependedOnBy_allValues.
  - intros x Hx Hu Hd.
    destruct (decide (Exists (λ p, p ∈ cur) (listAt (dependsOn (buildIndex ns)) x)))
      as [He|Hn].
    + apply Exists_exists in He as (p & Hp & Hpc).
      apply elem_of_nextLayer. exists p. split; [done|].
      split; [by apply dependsOn_dependedOnBy|]. split; [done|].
      apply allDepsVisited_spec. intros d Hdd. apply Hvis'.
      rewrite <- concat_snoc. by apply Hd.
    + exfalso. apply isSet_false_markVisited in Hu as [Hnc Hu]. apply Hnc.
      apply (inv_max _ _ _ _ _ HI); [done..|].
      intros d Hdd. specialize (Hd d Hdd). rewrite concat_snoc in Hd.
      apply elem_of_app in Hd as [?|Hc]; [done|].
      exfalso. apply Hn. apply Exists_exists. eauto.
Qed.

Lemma peel_Inv ns first fuel cur visited result res vis :
  Inv ns first cur visited result →
  peel fuel (buildIndex ns) cur visited result = Some (res, vis) →
  Inv ns first [] vis res.
Proof.
  revert cur visited result.
  induction fuel as [|fuel IH]; intros cur visited result HI Hp.
  - destruct cur; [|done]. simpl in Hp. by injection Hp as <- <-.
  - destruct cur as [|c cur]; [simpl in Hp; by injection Hp as <- <-|].
    cbn [peel] in Hp. eapply IH; [|exact Hp]. by apply Inv_step.
Qed.

Lemma Inv_length ns first cur visited result :
  Inv ns first cur visited result →
  length (concat result) + length cur ≤ size (allValues (buildIndex ns)).
Proof.
  intros HI. rewrite <- length_app, <- length_keys. apply submseteq_length.
  apply NoDup_submseteq; [apply HI|]. intros x Hx. apply elem_of_keys.
  by apply (inv_dom _ _ _ _ _ HI).
Qed.

(** The loop ends within the iterations it is given. *)
Lemma peel_total ns first fuel cur visited result :
  Inv ns first cur visited result →
  size (allValues (buildIndex ns)) ≤ fuel + length (concat result) →
  is_Some (peel fuel (buildIndex ns) cur visited result).
Proof.
  revert cur visited result.
  induction fuel as [|fuel IH]; intros cur visited result HI Hsz.
  - destruct cur as [|c cur]; [by eexists|].
    apply Inv_length in HI. simpl in *. lia.
  - destruct cur as [|c cur]; [by eexists|]. cbn [peel].
    apply IH; [by apply Inv_step|].
    rewrite concat_snoc, length_app. simpl. lia.
Qed.

(** ** The final check *)

Lemma cycleCheck_true order ix visited :
  rangeOrder order →
  cycleCheck order ix visited = true
  ↔ ∃ x, is_Some (allValues ix !! x) ∧ stuck ix visited x = true.
Proof.
  intros Ho. unfold cycleCheck. rewrite existsb_exists. split.
  - intros (x & Hx & Hs). exists x. split; [|done].
    apply elem_of_keys. rewrite <- (Ho _). by apply list_elem_of_In.
  - intros (x & Hx & Hs). exists x. split; [|done].
    apply list_elem_of_In. rewrite (Ho _). by apply elem_of_keys.
Qed.

Lemma cycleCheck_order order order' ix visited :
  rangeOrder order → rangeOrder order' →
  cycleCheck order ix visited = cycleCheck order' ix visited.
Proof.
  intros Ho Ho'. apply eq_true_iff_eq.
  by rewrite !cycleCheck_true.
Qed.

Lemma stuck_true ix visited x :
  stuck ix visited x = true
  ↔ isSet visited x = false ∧ ∃ ds, dependsOn ix !! x = Some ds ∧ ds ≠ [].
Proof.
  unfold stuck. rewrite andb_true_iff, negb_true_iff.
  destruct (dependsOn ix !! x) as [[|d ds]|]; simpl.
  - split; [intros [_ ?]; done|]. intros [_ (ds & [= <-] & ?)]. done.
  - split; [|tauto]. intros [? _]. split; [done|]. by eexists.
  - split; [intros [_ ?]; done|]. intros [_ (ds & ? & _)]. done.
Qed.

(** ** Independence from the visiting orders *)

Lemma firstLayer_order order order' ix :
  rangeOrder order → rangeOrder order' →
  firstLayer order ix ≡ₚ firstLayer order' ix.
Proof.
  intros Ho Ho'. rewrite !firstLayer_filter. by rewrite (Ho _), (Ho' _).
Qed.

Lemma peel_order ix fuel cur cur' visited result result' :
  cur ≡ₚ cur' → Forall2 (≡ₚ) result result' →
  sameRuns (peel fuel ix cur visited result) (peel fuel ix cur' visited result').
Proof.
  revert cur cur' visited result result'.
  induction fuel as [|fuel IH]; intros cur cur' visited result result' Hc Hr.
  - destruct cur as [|c cur], cur' as [|c' cur']; simpl; try done.
    + by apply Permutation_nil_cons in Hc.
    + symmetry in Hc. by apply Permutation_nil_cons in Hc.
  - destruct cur as [|c cur], cur' as [|c' cur']; try done.
    + by apply Permutation_nil_cons in Hc.
    + symmetry in Hc. by apply Permutation_nil_cons in Hc.
    + cbn [peel]. rewrite <- (markVisited_perm _ _ visited Hc).
      apply IH.
      * by apply nextLayer_perm.
      * apply Forall2_app; [done|]. by constructor.
Qed.

Lemma sortNodes_order o1 o2 o1' o2' ns :
  rangeOrder o1 → rangeOrder o2 → rangeOrder o1' → rangeOrder o2' →
  sameOutcome (sortNodes o1 o2 ns) (sortNodes o1' o2' ns).
Proof.
  intros H1 H2 H1' H2'. unfold sortNodes.
  pose proof (peel_order (buildIndex ns) (size (allValues (buildIndex ns)))
    _ _ ∅ [] [] (firstLayer_order o1 o1' (buildIndex ns) H1 H1')
    (Forall2_nil_2 _ _ _)) as Hs.
  destruct (peel _ _ (firstLayer o1 _) _ _) as [[r v]|],
           (peel _ _ (firstLayer o1' _) _ _) as [[r' v']|]; try done.
  destruct Hs as [Hr <-]. rewrite (cycleCheck_order o2 o2') by done.
  destruct (cycleCheck o2' _ _); simpl; [by split|by split].
Qed.

(** ** The body of [SortByLayers] *)

Lemma sortNodes_total o1 o2 ns :
  rangeOrder o1 →
  ∃ res vis,
    peel (size (allValues (buildIndex ns))) (buildIndex ns)
         (firstLayer o1 (buildIndex ns)) ∅ [] = Some (res, vis)
    ∧ Inv ns (firstLayer o1 (buildIndex ns)) [] vis res
    ∧ sortNodes o1 o2 ns
      = Some (if cycleCheck o2 (buildIndex ns) vis
              then ([], Some ErrCyclicDependency) else (res, None)).
Proof.
  intros Ho. pose proof (Inv_init ns o1 Ho) as HI.
  destruct (peel_total ns _ (size (allValues (buildIndex ns))) _ _ _ HI)
    as [[res vis] Hp]; [simpl; lia|].
  exists res, vis. split; [done|]. split; [by eapply peel_Inv|].
  unfold sortNodes. rewrite Hp. by destruct (cycleCheck _ _ _).
Qed.

Lemma sortNodes_success o1 o2 ns layers :
  rangeOrder o1 →
  sortNodes o1 o2 ns = Some (layers, None) →
  ∃ vis, Inv ns (firstLayer o1 (buildIndex ns)) [] vis layers
         ∧ cycleCheck o2 (buildIndex ns) vis = false.
Proof.
  intros Ho Hs. destruct (sortNodes_total o1 o2 ns Ho) as (res & vis & _ & HI & Heq).
  rewrite Heq in Hs. destruct (cycleCheck _ _ _) eqn:Hc; [done|].
  injection Hs as <-. by exists vis.
Qed.

(** After the loop, an unvisited identity has a non-empty [dependsOn]
    entry. *)
Lemma Inv_final_unvisited ns first vis res x :
  Inv ns first [] vis res →
  is_Some (allValues (buildIndex ns) !! x) →
  isSet vis x = false →
  ∃ ds, dependsOn (buildIndex ns) !! x = Some ds ∧ ds ≠ [].
Proof.
  intros HI Hx Hu.
  destruct (dependsOn (buildIndex ns) !! x) as [[|d ds]|] eqn:Hds.
  - exfalso. eapply elem_of_nil. apply (inv_max _ _ _ _ _ HI x); [done..|].
    intros d. unfold listAt. rewrite Hds. simpl. by intros ?%elem_of_nil.
  - by eexists.
  - exfalso. eapply elem_of_nil. apply (inv_max _ _ _ _ _ HI x); [done..|].
    intros d. unfold listAt. rewrite Hds. simpl. by intros ?%elem_of_nil.
Qed.

(** ** Layers and their indices *)

Lemma elem_of_concat_lookup (ls : list (list T)) x :
  x ∈ concat ls ↔ ∃ i l, ls !! i = Some l ∧ x ∈ l.
Proof.
  induction ls as [|l0 ls IH]; simpl.
  - split; [by intros ?%elem_of_nil|]. by intros (i & l & ? & _).
  - rewrite elem_of_app, IH. split.
    + intros [Hx|(i & l & Hl & Hx)]; [by exists 0, l0|by exists (S i), l].
    + intros ([|i] & l & Hl & Hx); simpl in Hl; [left; congruence|right; eauto].
Qed.

Lemma elem_of_concat_take (ls : list (list T)) i x :
  x ∈ concat (take i ls) → ∃ j l, j < i ∧ ls !! j = Some l ∧ x ∈ l.
Proof.
  intros (j & l & Hl & Hx)%elem_of_concat_lookup.
  apply lookup_take_Some in Hl as [Hl Hlt]. eauto.
Qed.

(** In a sequence of layers without repetition a value has one index. *)
Lemma layer_index_unique (ls : list (list T)) i j li lj x :
  NoDup (concat ls) → ls !! i = Some li → ls !! j = Some lj →
  x ∈ li → x ∈ lj → i = j.
Proof.
  revert i j. induction ls as [|l0 ls IH]; intros i j Hnd Hi Hj Hxi Hxj; [done|].
  simpl in Hnd. apply NoDup_app in Hnd as (_ & Hdisj & Hnd).
  destruct i as [|i], j as [|j]; simpl in *; [done| | |].
  - injection Hi as <-. exfalso. apply (Hdisj x Hxi).
    apply elem_of_concat_lookup. eauto.
  - injection Hj as <-. exfalso. apply (Hdisj x Hxj).
    apply elem_of_concat_lookup. eauto.
  - f_equal. by apply IH.
Qed.

(** The dependencies read from [dependsOn] are in strictly earlier
    layers. *)
Lemma enforced_order o1 o2 ns layers i j li lj x d :
  rangeOrder o1 →
  sortNodes o1 o2 ns = Some (layers, None) →
  layers !! i = Some li → x ∈ li →
  layers !! j = Some lj → d ∈ lj →
  d ∈ listAt (dependsOn (buildIndex ns)) x →
  j < i.
Proof.
  intros Ho Hs Hi Hx Hj Hd Hdep.
  destruct (sortNodes_success _ _ _ _ Ho Hs) as (vis & HI & _).
  pose proof (inv_nodup _ _ _ _ _ HI) as Hnd. rewrite app_nil_r in Hnd.
  destruct (elem_of_concat_take layers i d) as (k & lk & Hlt & Hk & Hdk).
  { by eapply (inv_order _ _ _ _ _ HI). }
  by rewrite (layer_index_unique layers j k lj lk d).
Qed.

End Proofs.

(** * Properties of [SortByLayers] *)

Section Claims.
Context {T : Type} `{Countable T}.
Implicit Types (g : Graph T) (layers : list (list T)) (x : T).

(** C2 (coverage): when [SortByLayers] succeeds, the concatenation of the
    returned layers has no repeated value and holds exactly the identities
    of the graph, those added as nodes and those named as dependencies. *)
Theorem SortByLayers_coverage (o1 o2 : list T → list T) g g' layers :
  rangeOrder o1 → rangeOrder o2 →
  SortByLayers o1 o2 g = (Some (layers, None), g') →
  NoDup (concat layers) ∧ ∀ x, x ∈ concat layers ↔ identity (nodes g) x.
Proof.
  intros Ho1 Ho2 [= Hs _].
  destruct (sortNodes_success _ _ _ _ Ho1 Hs) as (vis & HI & Hc).
  pose proof (inv_nodup _ _ _ _ _ HI) as Hnd. rewrite app_nil_r in Hnd.
  split; [done|]. intros x. rewrite <- allValues_identity. split.
  - intros Hx. apply (inv_dom _ _ _ _ _ HI). by rewrite app_nil_r.
  - intros Hx. apply (inv_vis _ _ _ _ _ HI).
    destruct (isSet vis x) eqn:Hv; [done|]. exfalso.
    destruct (Inv_final_unvisited _ _ _ _ _ HI Hx Hv) as (ds & Hds & Hne).
    assert (cycleCheck o2 (buildIndex (nodes g)) vis = true) as Ht; [|congruence].
    apply cycleCheck_true; [done|]. exists x. split; [done|].
    apply stuck_true. eauto.
Qed.

(** C5 (maximality): when [SortByLayers] succeeds, every value of a layer
    after the first has one of its declared dependencies in the layer just
    before it; that dependency is an entry of the value's [dependsOn] list. *)
Theorem SortByLayers_tight (o1 o2 : list T → list T) g g' layers i li x :
  rangeOrder o1 → rangeOrder o2 →
  SortByLayers o1 o2 g = (Some (layers, None), g') →
  layers !! S i = Some li → x ∈ li →
  ∃ lp p, layers !! i = Some lp ∧ p ∈ lp ∧ edge (nodes g) x p
          ∧ p ∈ listAt (dependsOn (buildIndex (nodes g))) x.
Proof.
  intros Ho1 Ho2 [= Hs _] Hi Hx.
  destruct (sortNodes_success _ _ _ _ Ho1 Hs) as (vis & HI & _).
  destruct (inv_tight _ _ _ _ _ HI i li x Hi Hx) as (lp & p & Hlp & Hp & Hd).
  exists lp, p. repeat split; try done.
  by apply dependedOnBy_edge, dependsOn_dependedOnBy.
Qed.

(** C6: with [visited] the map left by the peeling loop, [SortByLayers]
    returns an error exactly when some node recorded with a non-empty
    dependency list has an unvisited value; the error is then
    [ErrCyclicDependency] and the layers are nil, and otherwise the layers
    of the loop are returned without error. *)
Theorem SortByLayers_error_iff (o1 o2 : list T → list T) g :
  rangeOrder o1 → rangeOrder o2 →
  ∃ res vis,
    peel (size (allValues (buildIndex (nodes g)))) (buildIndex (nodes g))
         (firstLayer o1 (buildIndex (nodes g))) ∅ [] = Some (res, vis)
    ∧ ((∃ n, n ∈ nodes g ∧ deps n ≠ [] ∧ isSet vis (value n) = false)
       → (SortByLayers o1 o2 g).1 = Some ([], Some ErrCyclicDependency))
    ∧ (¬ (∃ n, n ∈ nodes g ∧ deps n ≠ [] ∧ isSet vis (value n) = false)
       → (SortByLayers o1 o2 g).1 = Some (res, None)).
Proof.
  intros Ho1 Ho2.
  destruct (sortNodes_total o1 o2 (nodes g) Ho1) as (res & vis & Hp & HI & Heq).
  exists res, vis. split; [done|]. simpl. rewrite Heq.
  assert (cycleCheck o2 (buildIndex (nodes g)) vis = true
          ↔ ∃ n, n ∈ nodes g ∧ deps n ≠ [] ∧ isSet vis (value n) = false) as Hiff.
  { rewrite cycleCheck_true by done. split.
    - intros (x & _ & (Hu & ds & Hds & Hne)%stuck_true).
      apply dependsOn_Some in Hds as (n & Hn & <- & <-). eauto.
    - intros (n & Hn & _ & Hu). exists (value n).
      assert (is_Some (allValues (buildIndex (nodes g)) !! value n)) as Hx.
      { apply allValues_identity. exists n. auto. }
      split; [done|]. apply stuck_true. split; [done|].
      by eapply Inv_final_unvisited. }
  destruct (cycleCheck o2 _ vis).
  - split; [done|]. intros Hn. exfalso. apply Hn, Hiff. done.
  - split; [|done]. intros Hn. apply Hiff in Hn. done.
Qed.

(** C8 (determinism of structure): a call and a second call on the graph
    the first one leaves, whatever the orders in which their [range] loops
    visit the maps, return the same error and sequences of layers of equal
    length whose layers at each index are rearrangements of one another,
    hence equal as sets. *)
Theorem SortByLayers_deterministic (o1 o2 o1' o2' : list T → list T) g :
  rangeOrder o1 → rangeOrder o2 → rangeOrder o1' → rangeOrder o2' →
  ∃ out out',
    (SortByLayers o1 o2 g).1 = Some out
    ∧ (SortByLayers o1' o2' (SortByLayers o1 o2 g).2).1 = Some out'
    ∧ out.2 = out'.2
    ∧ Forall2 (≡ₚ) out.1 out'.1.
Proof.
  intros Ho1 Ho2 Ho1' Ho2'. simpl.
  pose proof (sortNodes_order o1 o2 o1' o2' (nodes g) Ho1 Ho2 Ho1' Ho2') as Hs.
  destruct (sortNodes_total o1 o2 (nodes g) Ho1) as (? & ? & _ & _ & Heq).
  destruct (sortNodes_total o1' o2' (nodes g) Ho1') as (? & ? & _ & _ & Heq').
  rewrite Heq, Heq' in *. destruct Hs as [? ?]. eexists _, _. eauto.
Qed.

(** C9 (frame): a call of [SortByLayers] leaves the graph as it was, the
    recorded nodes included, whatever it returns; a second call then
    returns what the first did. *)
Theorem SortByLayers_frame (o1 o2 : list T → list T) g :
  (SortByLayers o1 o2 g).2 = g
  ∧ nodes (SortByLayers o1 o2 g).2 = nodes g
  ∧ SortByLayers o1 o2 (SortByLayers o1 o2 g).2 = SortByLayers o1 o2 g.
Proof.
  unfold SortByLayers. simpl. split; [reflexivity|]. split; reflexivity.
Qed.

Lemma rangeOrder_nil (o : list T → list T) : rangeOrder o → o [] = [].
Proof. intros Ho. apply Permutation_nil_r. by rewrite (Ho []). Qed.

(** C10: when [SortByLayers] succeeds no returned layer is empty, and on
    the empty graph it returns no layer at all and no error. *)
Theorem SortByLayers_layers_nonempty (o1 o2 : list T → list T) :
  rangeOrder o1 → rangeOrder o2 →
  (∀ g g' layers, SortByLayers o1 o2 g = (Some (layers, None), g') →
                  Forall (λ l, l ≠ []) layers)
  ∧ SortByLayers o1 o2 emptyGraph = (Some ([], None), emptyGraph).
Proof.
  intros Ho1 Ho2. split.
  - intros g g' layers [= Hs _].
    destruct (sortNodes_success _ _ _ _ Ho1 Hs) as (vis & HI & _). apply HI.
  - unfold SortByLayers, sortNodes, firstLayer, cycleCheck. simpl.
    assert (keys (∅ : gmap T bool) = []) as ->
      by (unfold keys; by rewrite map_to_list_empty).
    rewrite (rangeOrder_nil o1) by done.
    destruct (size (∅ : gmap T bool)); simpl; by rewrite (rangeOrder_nil o2).
Qed.

Lemma singleton_list (l : list T) a :
  NoDup l → (∀ x, x ∈ l ↔ x = a) → l = [a].
Proof.
  intros Hnd Hl. apply Permutation_singleton_r.
  apply NoDup_Permutation; [done|apply NoDup_singleton|].
  intros x. by rewrite Hl, list_elem_of_singleton.
Qed.

(** The layers of the graph holding the single node [X] with the one
    dependency [Y]. *)
Lemma implicit_node_layers (o1 o2 : list T → list T) (X Y : T) :
  rangeOrder o1 → rangeOrder o2 → X ≠ Y →
  sortNodes o1 o2 [mkNode X [Y]] = Some ([[Y]; [X]], None).
Proof.
  intros Ho1 Ho2 Hne.
  assert (Hix : buildIndex [mkNode X [Y]]
    = mkIndex (<[X := [Y]]> ∅) (<[Y := [X]]> ∅) (<[Y := true]> (<[X := true]> ∅)))
    by done.
  unfold sortNodes. rewrite Hix.
  set (ix := mkIndex _ _ _).
  assert (Hfirst : firstLayer o1 ix = [Y]).
  { apply singleton_list; [by apply NoDup_firstLayer|]. intros x.
    rewrite elem_of_firstLayer by done. unfold noDeps. simpl.
    split.
    - intros [Hx Hn]. destruct (decide (x = X)) as [->|Hx'].
      + by rewrite lookup_insert_eq in Hn.
      + destruct (decide (x = Y)) as [->|Hy]; [done|].
        rewrite !lookup_insert_ne, lookup_empty in Hx by done. by destruct Hx.
    - intros ->. rewrite lookup_insert_eq. split; [by eexists|].
      by rewrite lookup_insert_ne, lookup_empty. }
  assert (Hsize : size (allValues ix) = 2).
  { simpl. rewrite !map_size_insert_None; [done|done|].
    by rewrite lookup_insert_ne, lookup_empty. }
  rewrite Hfirst, Hsize. cbn [peel].
  assert (Hn1 : nextLayer ix (markVisited [Y] ∅) [Y] = [X]).
  { unfold nextLayer, scan, consider, allDepsVisited, listAt, isSet. simpl.
    rewrite !lookup_insert_eq. simpl.
    rewrite !lookup_insert_ne, !lookup_empty by done. simpl.
    rewrite !lookup_insert_eq. simpl. by rewrite lookup_insert_eq. }
  rewrite Hn1. cbn [peel].
  assert (Hn2 : nextLayer ix (markVisited [X] (markVisited [Y] ∅)) [X] = []).
  { unfold nextLayer, scan, consider, allDepsVisited, listAt, isSet. simpl.
    by rewrite !lookup_insert_ne, !lookup_empty by done. }
  rewrite Hn2. cbn [peel]. simpl.
  destruct (cycleCheck o2 ix _) eqn:Hc; [exfalso|done].
  apply cycleCheck_true in Hc as (x & _ & (Hu & ds & Hds & _)%stuck_true); [|done].
  simpl in Hds. destruct (decide (x = X)) as [->|Hx].
  - unfold isSet in Hu. by rewrite lookup_insert_eq in Hu.
  - by rewrite lookup_insert_ne, lookup_empty in Hds.
Qed.

(** C7: the first layer returned by [SortByLayers] holds, once each, the
    identities whose [dependsOn] entry is absent or empty; and the graph
    with the single node [X] depending on [Y], where [Y] is never added,
    is sorted into the layers [[Y]] then [[X]]. *)
Theorem SortByLayers_first_layer (o1 o2 : list T → list T) :
  rangeOrder o1 → rangeOrder o2 →
  (∀ g g' l0 rest,
     SortByLayers o1 o2 g = (Some (l0 :: rest, None), g') →
     NoDup l0
     ∧ ∀ x, x ∈ l0 ↔
         identity (nodes g) x
         ∧ (dependsOn (buildIndex (nodes g)) !! x = None
            ∨ dependsOn (buildIndex (nodes g)) !! x = Some []))
  ∧ (∀ X Y, X ≠ Y →
       (SortByLayers o1 o2 (build [(X, [Y])])).1 = Some ([[Y]; [X]], None)).
Proof.
  intros Ho1 Ho2. split.
  - intros g g' l0 rest [= Hs _].
    destruct (sortNodes_success _ _ _ _ Ho1 Hs) as (vis & HI & _).
    pose proof (inv_head _ _ _ _ _ HI) as Hh. simpl in Hh. injection Hh as ->.
    split; [by apply NoDup_firstLayer|]. intros x.
    rewrite elem_of_firstLayer, allValues_identity by done. unfold noDeps.
    destruct (dependsOn (buildIndex (nodes g)) !! x) as [[|d ds]|]; simpl.
    + intuition.
    + split; [intros [_ ?]; done|]. intros [_ [?|?]]; done.
    + intuition.
  - intros X Y Hne. by apply implicit_node_layers.
Qed.

(** ** Graphs in which no identity is added twice

    When every value is recorded once, [dependsOn] holds every recorded
    edge, and the layering respects all of them. *)

Lemma edge_dependsOn (ns : list (node T)) x d :
  NoDup (value <$> ns) → edge ns x d →
  d ∈ listAt (dependsOn (buildIndex ns)) x.
Proof.
  intros Hnd (n & Hn & <- & Hd).
  apply list_elem_of_split in Hn as (ns1 & ns2 & ->).
  unfold listAt. rewrite dependsOn_last; [done|].
  intros n' Hn' Heq. rewrite fmap_app, fmap_cons in Hnd.
  apply NoDup_app in Hnd as (_ & _ & Hnd). apply NoDup_cons in Hnd as [Hnotin _].
  apply Hnotin. rewrite <- Heq. apply list_elem_of_fmap. eauto.
Qed.

(** Ordering, for a graph without a repeated value: a prerequisite is in
    a strictly earlier layer than its dependent. *)
Theorem SortByLayers_ordering_unique (o1 o2 : list T → list T)
    g g' layers i j li lj x d :
  rangeOrder o1 → rangeOrder o2 →
  NoDup (value <$> nodes g) →
  SortByLayers o1 o2 g = (Some (layers, None), g') →
  edge (nodes g) x d →
  layers !! i = Some li → x ∈ li →
  layers !! j = Some lj → d ∈ lj →
  j < i.
Proof.
  intros Ho1 Ho2 Hnd [= Hs _] He Hi Hx Hj Hd.
  apply (enforced_order o1 o2 (nodes g) layers i j li lj x d); try done.
  by apply edge_dependsOn.
Qed.

(** Ordering, for any graph: the entries of the list that [dependsOn]
    keeps for a value, the one of the last node recorded for it, are in
    strictly earlier layers than the value. *)
Theorem SortByLayers_ordering_last (o1 o2 : list T → list T)
    g g' layers ns1 n ns2 i j li lj d :
  rangeOrder o1 → rangeOrder o2 →
  nodes g = ns1 ++ n :: ns2 →
  (∀ n', n' ∈ ns2 → value n' ≠ value n) →
  SortByLayers o1 o2 g = (Some (layers, None), g') →
  d ∈ deps n →
  layers !! i = Some li → value n ∈ li →
  layers !! j = Some lj → d ∈ lj →
  j < i.
Proof.
  intros Ho1 Ho2 Hg Hlast [= Hs _] Hdn Hi Hx Hj Hd.
  apply (enforced_order o1 o2 (nodes g) layers i j li lj (value n) d);
    try done.
  unfold listAt. by rewrite Hg, dependsOn_last.
Qed.

(** Cycle detection, for a graph without a repeated value: a cycle of
    recorded edges makes [SortByLayers] return the error and no layer. *)
Theorem SortByLayers_cycle_unique (o1 o2 : list T → list T) g x :
  rangeOrder o1 → rangeOrder o2 →
  NoDup (value <$> nodes g) →
  tc (edge (nodes g)) x x →
  (SortByLayers o1 o2 g).1 = Some ([], Some ErrCyclicDependency).
Proof.
  intros Ho1 Ho2 Hnd Hcyc. simpl.
  destruct (sortNodes_total o1 o2 (nodes g) Ho1) as (res & vis & _ & HI & ->).
  pose proof (inv_nodup _ _ _ _ _ HI) as Hndl. rewrite app_nil_r in Hndl.
  assert (Hdown : ∀ a b, tc (edge (nodes g)) a b →
    ∀ i li, res !! i = Some li → a ∈ li →
    ∃ j lj, j < i ∧ res !! j = Some lj ∧ b ∈ lj).
  { intros a b Hab. induction Hab as [a b He|a b c He _ IH]; intros i li Hi Ha.
    - apply elem_of_concat_take. eapply (inv_order _ _ _ _ _ HI); [done..|].
      by apply edge_dependsOn.
    - destruct (elem_of_concat_take res i b) as (j & lj & Hlt & Hj & Hb).
      { eapply (inv_order _ _ _ _ _ HI); [done..|]. by apply edge_dependsOn. }
      destruct (IH j lj Hj Hb) as (k & lk & ? & ? & ?).
      exists k, lk. split; [lia|done]. }
  assert (isSet vis x = false) as Hu.
  { destruct (isSet vis x) eqn:Hv; [exfalso|done].
    apply (inv_vis _ _ _ _ _ HI), elem_of_concat_lookup in Hv as (i & li & Hi & Hx).
    destruct (Hdown x x Hcyc i li Hi Hx) as (j & lj & Hlt & Hj & Hxj).
    pose proof (layer_index_unique res i j li lj x Hndl Hi Hj Hx Hxj). lia. }
  assert (∃ d, edge (nodes g) x d) as [d He].
  { inversion Hcyc; eauto. }
  assert (cycleCheck o2 (buildIndex (nodes g)) vis = true) as ->; [|done].
  apply cycleCheck_true; [done|]. exists x. split.
  - apply allValues_identity. destruct He as (n & ? & ? & ?). exists n. auto.
  - apply stuck_true. split; [done|].
    apply (edge_dependsOn _ _ _ Hnd) in He. unfold listAt in He.
    destruct (dependsOn (buildIndex (nodes g)) !! x) as [ds|]; simpl in He.
    + exists ds. split; [done|]. intros ->. by apply elem_of_nil in He.
    + by apply elem_of_nil in He.
Qed.

(** What the body returns under any visiting orders, from what it returns
    under the maps' own enumeration order. *)
Lemma sortNodes_by_reference (o1 o2 : list T → list T) (ns : list (node T)) out0 :
  rangeOrder o1 → rangeOrder o2 →
  sortNodes id id ns = Some out0 →
  ∃ out, sortNodes o1 o2 ns = Some out
         ∧ out.2 = out0.2 ∧ Forall2 (≡ₚ) out.1 out0.1.
Proof.
  intros Ho1 Ho2 H0.
  assert (rangeOrder (@id (list T))) as Hid by (by intros l).
  pose proof (sortNodes_order o1 o2 id id ns Ho1 Ho2 Hid Hid) as Hs.
  rewrite H0 in Hs. destruct (sortNodes o1 o2 ns) as [out|]; [|done].
  exists out. by destruct Hs.
Qed.

End Claims.

(** * When the sort fails *)

Section Cycles.
Context {T : Type} `{Countable T}.
Implicit Types (g : Graph T) (ns : list (node T)) (x y d : T).

(** In a finite set where every member has a successor in the set, some
    member reaches itself. *)
Lemma successor_cycle (R : T → T → Prop) (U : list T) :
  (∀ x, x ∈ U → ∃ y, R x y ∧ y ∈ U) →
  ∀ x, x ∈ U → ∃ y, tc R y y.
Proof.
  intros Hsucc.
  assert (Hwalk : ∀ k (p : list T) x, NoDup p → (∀ z, z ∈ p → z ∈ U) → x ∈ p →
    (∀ z, z ∈ p → rtc R z x) → length U ≤ k + length p → ∃ y, tc R y y).
  { induction k as [|k IH]; intros p x Hnd Hsub Hx Hreach Hlen;
      destruct (Hsucc x (Hsub x Hx)) as (y & Hxy & Hy);
      (destruct (decide (y ∈ p)) as [Hin|Hout];
        [exists y; eapply tc_rtc_l; [by apply Hreach|by apply tc_once]|]).
    - exfalso.
      assert (length (y :: p) ≤ length U) as Hle; [|simpl in *; lia].
      apply submseteq_length, NoDup_submseteq; [by constructor|].
      intros z [->|Hz]%elem_of_cons; auto.
    - apply (IH (y :: p) y).
      + by constructor.
      + intros z [->|Hz]%elem_of_cons; auto.
      + by left.
      + intros z [->|Hz]%elem_of_cons; [done|].
        eapply rtc_r; [by apply Hreach|done].
      + simpl. lia. }
  intros x Hx. apply (Hwalk (length U) [x] x).
  - apply NoDup_singleton.
  - by intros z ->%list_elem_of_singleton.
  - by left.
  - by intros z ->%list_elem_of_singleton.
  - simpl. lia.
Qed.

Lemma kept_edge ns x d : kept ns x d → edge ns x d.
Proof.
  unfold kept. intros Hd. by apply dependedOnBy_edge, dependsOn_dependedOnBy.
Qed.

Lemma kept_identity ns x d :
  kept ns x d →
  is_Some (allValues (buildIndex ns) !! x) ∧ is_Some (allValues (buildIndex ns) !! d).
Proof.
  intros (n & Hn & Hv & Hd)%kept_edge.
  split; apply allValues_identity; exists n; auto.
Qed.

(** After the loop, an unvisited identity has an unvisited entry in its
    [dependsOn] list. *)
Lemma unvisited_successor ns first vis res x :
  Inv ns first [] vis res →
  is_Some (allValues (buildIndex ns) !! x) → isSet vis x = false →
  ∃ d, kept ns x d ∧ is_Some (allValues (buildIndex ns) !! d) ∧ isSet vis d = false.
Proof.
  intros HI Hx Hu.
  destruct (decide (Exists (λ d, isSet vis d = false)
                           (listAt (dependsOn (buildIndex ns)) x))) as [He|Hne].
  - apply Exists_exists in He as (d & Hd & Hdu). exists d.
    split; [done|]. split; [|done]. by apply (kept_identity ns x d).
  - exfalso. eapply elem_of_nil. apply (inv_max _ _ _ _ _ HI x); [done..|].
    intros d Hd. apply (inv_vis _ _ _ _ _ HI).
    destruct (isSet vis d) eqn:Hv; [done|].
    exfalso. apply Hne, Exists_exists. eauto.
Qed.

(** A value on a cycle of kept dependencies is never visited. *)
Lemma kept_cycle_unvisited ns first vis res x :
  Inv ns first [] vis res → tc (kept ns) x x → isSet vis x = false.
Proof.
  intros HI Hcyc.
  pose proof (inv_nodup _ _ _ _ _ HI) as Hndl. rewrite app_nil_r in Hndl.
  assert (Hdown : ∀ a b, tc (kept ns) a b →
    ∀ i li, res !! i = Some li → a ∈ li →
    ∃ j lj, j < i ∧ res !! j = Some lj ∧ b ∈ lj).
  { intros a b Hab. induction Hab as [a b He|a b c He _ IH]; intros i li Hi Ha.
    - apply elem_of_concat_take. by eapply (inv_order _ _ _ _ _ HI).
    - destruct (elem_of_concat_take res i b) as (j & lj & Hlt & Hj & Hb).
      { by eapply (inv_order _ _ _ _ _ HI). }
      destruct (IH j lj Hj Hb) as (k & lk & ? & ? & ?).
      exists k, lk. split; [lia|done]. }
  destruct (isSet vis x) eqn:Hv; [exfalso|done].
  apply (inv_vis _ _ _ _ _ HI), elem_of_concat_lookup in Hv as (i & li & Hi & Hx).
  destruct (Hdown x x Hcyc i li Hi Hx) as (j & lj & Hlt & Hj & Hxj).
  pose proof (layer_index_unique res i j li lj x Hndl Hi Hj Hx Hxj). lia.
Qed.

(** The final check finds a stuck value exactly when the lists kept in
    [dependsOn] contain a cycle. *)
Lemma cycleCheck_iff_cycle (o2 : list T → list T) ns first vis res :
  rangeOrder o2 →
  Inv ns first [] vis res →
  cycleCheck o2 (buildIndex ns) vis = true ↔ ∃ x, tc (kept ns) x x.
Proof.
  intros Ho2 HI. rewrite cycleCheck_true by done. split.
  - intros (x & Hx & (Hu & _)%stuck_true).
    apply (successor_cycle (kept ns)
             (filter (λ y, isSet vis y = false)
                     (keys (allValues (buildIndex ns))))) with x.
    + intros y [Hyu Hy%elem_of_keys]%list_elem_of_filter.
      destruct (unvisited_successor _ _ _ _ y HI Hy Hyu) as (d & ? & ? & ?).
      exists d. split; [done|]. apply list_elem_of_filter.
      split; [done|]. by apply elem_of_keys.
    + apply list_elem_of_filter. split; [done|]. by apply elem_of_keys.
  - intros (x & Hcyc). exists x.
    assert (∃ d, kept ns x d) as [d Hd] by (inversion Hcyc; eauto).
    split; [by apply (kept_identity _ x d)|].
    apply stuck_true. split; [by eapply kept_cycle_unvisited|].
    unfold kept, listAt in Hd.
    destruct (dependsOn (buildIndex ns) !! x) as [ds|]; simpl in Hd.
    + exists ds. split; [done|]. intros ->. by apply elem_of_nil in Hd.
    + by apply elem_of_nil in Hd.
Qed.

Lemma sortNodes_kept_cycle (o1 o2 : list T → list T) ns x :
  rangeOrder o1 → rangeOrder o2 →
  tc (kept ns) x x →
  sortNodes o1 o2 ns = Some ([], Some ErrCyclicDependency).
Proof.
  intros Ho1 Ho2 Hcyc.
  destruct (sortNodes_total o1 o2 ns Ho1) as (res & vis & _ & HI & ->).
  assert (cycleCheck o2 (buildIndex ns) vis = true) as ->; [|done].
  apply (cycleCheck_iff_cycle o2 ns _ vis res Ho2 HI). eauto.
Qed.

(** [SortByLayers] returns the error exactly when the lists kept in
    [dependsOn] contain a cycle; the recorded edges then contain one too.
    Without a cycle the call returns layers and no error. *)
Theorem SortByLayers_error_iff_cycle (o1 o2 : list T → list T) g :
  rangeOrder o1 → rangeOrder o2 →
  ((SortByLayers o1 o2 g).1 = Some ([], Some ErrCyclicDependency)
   ↔ ∃ x, tc (kept (nodes g)) x x)
  ∧ ((SortByLayers o1 o2 g).1 = Some ([], Some ErrCyclicDependency)
     → ∃ x, tc (edge (nodes g)) x x)
  ∧ ((¬ ∃ x, tc (kept (nodes g)) x x)
     → ∃ layers, (SortByLayers o1 o2 g).1 = Some (layers, None)).
Proof.
  intros Ho1 Ho2. simpl.
  destruct (sortNodes_total o1 o2 (nodes g) Ho1) as (res & vis & _ & HI & ->).
  pose proof (cycleCheck_iff_cycle o2 (nodes g) _ vis res Ho2 HI) as Hiff.
  destruct (cycleCheck o2 _ vis).
  - split; [|split].
    + split; [intros _; by apply Hiff|done].
    + intros _. destruct Hiff as [[x Hx] _]; [done|]. exists x.
      apply (tc_congruence id (edge (nodes g))) in Hx; [done|].
      intros a b. apply kept_edge.
    + intros Hn. exfalso. apply Hn, Hiff. done.
  - split; [|split].
    + split; [done|]. intros Hx. apply Hiff in Hx. done.
    + done.
    + intros _. by exists res.
Qed.

(** Whatever the graph held, once a value is added with itself among its
    dependencies the sort fails. *)
Theorem AddNode_self_dependency_fails (o1 o2 : list T → list T) g x ds :
  rangeOrder o1 → rangeOrder o2 →
  x ∈ ds →
  (SortByLayers o1 o2 (AddNode x ds g).2).1 = Some ([], Some ErrCyclicDependency).
Proof.
  intros Ho1 Ho2 Hx. simpl.
  apply (sortNodes_kept_cycle o1 o2 _ x Ho1 Ho2).
  apply tc_once. unfold kept, listAt.
  by rewrite (dependsOn_last (nodes g) (mkNode x ds) [])
    by (by intros ? ?%elem_of_nil).
Qed.

End Cycles.

(** * The shape of the result *)

Section Shape.
Context {T : Type} `{Countable T}.
Implicit Types (g : Graph T) (ns : list (node T)) (x y d : T).

Lemma length_le_concat (ls : list (list T)) :
  Forall (λ l, l ≠ []) ls → length ls ≤ length (concat ls).
Proof.
  induction 1 as [|l ls Hl _ IH]; simpl; [done|].
  rewrite length_app. destruct l; [done|]. simpl. lia.
Qed.

(** The loop of [SortByLayers] runs at most once per identity of the
    graph: the call always returns, and never more layers than there are
    identities. *)
Theorem SortByLayers_returns_bounded (o1 o2 : list T → list T) g :
  rangeOrder o1 →
  ∃ out, (SortByLayers o1 o2 g).1 = Some out
         ∧ length out.1 ≤ size (allValues (buildIndex (nodes g)))
         ∧ ∀ ids, (∀ x, identity (nodes g) x → x ∈ ids) →
                  length out.1 ≤ length ids.
Proof.
  intros Ho1. simpl.
  destruct (sortNodes_total o1 o2 (nodes g) Ho1) as (res & vis & _ & HI & ->).
  assert (length res ≤ size (allValues (buildIndex (nodes g)))) as Hres.
  { pose proof (Inv_length _ _ _ _ _ HI) as Hl. simpl in Hl.
    pose proof (length_le_concat res (inv_nonempty _ _ _ _ _ HI)). lia. }
  assert (∀ ids, (∀ x, identity (nodes g) x → x ∈ ids) →
                 size (allValues (buildIndex (nodes g))) ≤ length ids) as Hids.
  { intros ids Hin. rewrite <- length_keys.
    apply submseteq_length, NoDup_submseteq; [apply NoDup_keys|].
    intros x Hx. by apply Hin, allValues_identity, elem_of_keys. }
  eexists. split; [done|].
  destruct (cycleCheck o2 _ vis); simpl.
  - split; [lia|]. intros ids _. lia.
  - split; [done|]. intros ids Hin. specialize (Hids ids Hin). lia.
Qed.

(** On success every identity is in some layer. *)
Lemma sortNodes_covers (o1 o2 : list T → list T) ns layers x :
  rangeOrder o1 → rangeOrder o2 →
  sortNodes o1 o2 ns = Some (layers, None) →
  identity ns x → x ∈ concat layers.
Proof.
  intros Ho1 Ho2 Hs Hx%allValues_identity.
  destruct (sortNodes_success _ _ _ _ Ho1 Hs) as (vis & HI & Hc).
  apply (inv_vis _ _ _ _ _ HI).
  destruct (isSet vis x) eqn:Hv; [done|]. exfalso.
  destruct (Inv_final_unvisited _ _ _ _ _ HI Hx Hv) as (ds & Hds & Hne).
  assert (cycleCheck o2 (buildIndex ns) vis = true) as Ht; [|congruence].
  apply cycleCheck_true; [done|]. exists x. split; [done|].
  apply stuck_true. eauto.
Qed.

(** A graph whose nodes all have an empty dependency list is sorted into
    a single layer, holding each value once. *)
Theorem SortByLayers_no_dependencies (o1 o2 : list T → list T) g :
  rangeOrder o1 → rangeOrder o2 →
  nodes g ≠ [] →
  (∀ n, n ∈ nodes g → deps n = []) →
  ∃ l, (SortByLayers o1 o2 g).1 = Some ([l], None)
       ∧ NoDup l ∧ ∀ x, x ∈ l ↔ ∃ n, n ∈ nodes g ∧ value n = x.
Proof.
  intros Ho1 Ho2 Hne Hnodeps. simpl.
  destruct (sortNodes_total o1 o2 (nodes g) Ho1) as (res & vis & _ & HI & ->).
  assert (Hno : ∀ x, noDeps (buildIndex (nodes g)) x = true).
  { intros x. unfold noDeps.
    destruct (dependsOn (buildIndex (nodes g)) !! x) as [ds|] eqn:Hds; [|done].
    apply dependsOn_Some in Hds as (n & Hn & _ & <-). by rewrite Hnodeps. }
  assert (Hid : ∀ x, identity (nodes g) x ↔ ∃ n, n ∈ nodes g ∧ value n = x).
  { intros x. split.
    - intros (n & Hn & [?|Hd]); [eauto|]. rewrite (Hnodeps n Hn) in Hd.
      by apply elem_of_nil in Hd.
    - intros (n & ? & ?). exists n. auto. }
  assert (Hfirst : ∀ x, x ∈ firstLayer o1 (buildIndex (nodes g)) ↔ identity (nodes g) x).
  { intros x. rewrite elem_of_firstLayer, allValues_identity by done.
    specialize (Hno x). tauto. }
  assert (cycleCheck o2 (buildIndex (nodes g)) vis = false) as ->.
  { destruct (cycleCheck o2 _ vis) eqn:Hc; [exfalso|done].
    apply cycleCheck_true in Hc as (x & _ & (_ & ds & Hds & Hnil)%stuck_true); [|done].
    specialize (Hno x). unfold noDeps in Hno. rewrite Hds in Hno.
    by destruct ds. }
  pose proof (inv_head _ _ _ _ _ HI) as Hh.
  pose proof (inv_nodup _ _ _ _ _ HI) as Hnd. rewrite app_nil_r in Hnd.
  destruct res as [|l0 rest]; simpl in Hh.
  - exfalso. destruct (nodes g) as [|n ns] eqn:Hg; [done|].
    assert (value n ∈ firstLayer o1 (buildIndex (n :: ns))) as Hin.
    { apply Hfirst, Hid. exists n. split; [by left|done]. }
    injection Hh as Hh. rewrite <- Hh in Hin. by apply elem_of_nil in Hin.
  - injection Hh as ->. destruct rest as [|l1 rest].
    + eexists. split; [done|]. split; [by apply NoDup_firstLayer|].
      intros x. by rewrite Hfirst, Hid.
    + exfalso. pose proof (inv_nonempty _ _ _ _ _ HI) as Hall.
      apply Forall_cons in Hall as [_ [Hl1 _]%Forall_cons].
      destruct l1 as [|y l1]; [done|].
      simpl in Hnd. apply NoDup_app in Hnd as (_ & Hdisj & _).
      apply (Hdisj y); [|by left].
      apply Hfirst, allValues_identity, (inv_dom _ _ _ _ _ HI).
      rewrite app_nil_r. simpl. rewrite elem_of_app. right. by left.
Qed.

(** [AddNode] validates nothing and drops nothing: when the sort of the
    extended graph succeeds, its layers hold the added value, each of its
    dependencies, added before or not, and every identity the graph had. *)
Theorem AddNode_then_sort_covers (o1 o2 : list T → list T) g g' v ds layers :
  rangeOrder o1 → rangeOrder o2 →
  SortByLayers o1 o2 (AddNode v ds g).2 = (Some (layers, None), g') →
  v ∈ concat layers
  ∧ (∀ d, d ∈ ds → d ∈ concat layers)
  ∧ (∀ x, identity (nodes g) x → x ∈ concat layers)
  ∧ nodes g' = nodes g ++ [mkNode v ds].
Proof.
  intros Ho1 Ho2 [= Hs <-]. simpl in Hs.
  pose proof (sortNodes_covers o1 o2 (nodes g ++ [mkNode v ds]) layers) as Hcov.
  split; [|split; [|split]].
  - apply Hcov; try done. exists (mkNode v ds).
    rewrite elem_of_app, list_elem_of_singleton. auto.
  - intros d Hd. apply Hcov; try done. exists (mkNode v ds).
    rewrite elem_of_app, list_elem_of_singleton. auto.
  - intros x (n & Hn & Hx). apply Hcov; try done. exists n.
    rewrite elem_of_app. auto.
  - done.
Qed.

End Shape.

(** * The order of the [AddNode] calls *)

Section InsertionOrder.
Context {T : Type} `{Countable T}.
Implicit Types (g : Graph T) (ns : list (node T)) (ix : index T) (x y d : T).

Lemma addDeps_allValues_true v ds ix :
  (∀ x b, allValues ix !! x = Some b → b = true) →
  ∀ x b, allValues (foldl (addDep v) ix ds) !! x = Some b → b = true.
Proof.
  revert ix. induction ds as [|d ds IH]; intros ix Hix; simpl; [done|].
  apply IH. intros x b. simpl. rewrite lookup_insert.
  case_decide; [congruence|apply Hix].
Qed.

Lemma allValues_true ns x b :
  allValues (buildIndex ns) !! x = Some b → b = true.
Proof.
  revert x b. induction ns as [|n ns IH] using rev_ind; intros x b.
  - simpl. by rewrite lookup_empty.
  - rewrite buildIndex_snoc. unfold addEntry. apply addDeps_allValues_true.
    intros y c. simpl. rewrite lookup_insert. case_decide; [congruence|apply IH].
Qed.

(** When no value is recorded twice, [dependsOn] holds the list of the
    one node of each value. *)
Lemma dependsOn_unique ns n :
  NoDup (value <$> ns) → n ∈ ns →
  dependsOn (buildIndex ns) !! value n = Some (deps n).
Proof.
  intros Hnd Hn. apply list_elem_of_split in Hn as (ns1 & ns2 & ->).
  apply dependsOn_last. intros n' Hn' Heq.
  rewrite fmap_app, fmap_cons in Hnd.
  apply NoDup_app in Hnd as (_ & _ & Hnd). apply NoDup_cons in Hnd as [Hnotin _].
  apply Hnotin. rewrite <- Heq. apply list_elem_of_fmap. eauto.
Qed.

Lemma buildIndex_perm ns ns' :
  NoDup (value <$> ns) → ns ≡ₚ ns' →
  sameIndex (buildIndex ns) (buildIndex ns').
Proof.
  intros Hnd Hp.
  assert (NoDup (value <$> ns')) as Hnd' by (by rewrite <- Hp).
  split; [|split].
  - apply map_eq. intros x.
    destruct (dependsOn (buildIndex ns) !! x) as [ds|] eqn:Hds.
    + apply dependsOn_Some in Hds as (n & Hn & <- & <-).
      symmetry. apply dependsOn_unique; [done|]. by rewrite <- Hp.
    + symmetry. apply dependsOn_None. intros n Hn.
      rewrite dependsOn_None in Hds. apply Hds. by rewrite Hp.
  - apply map_eq. intros x.
    assert (is_Some (allValues (buildIndex ns) !! x)
            ↔ is_Some (allValues (buildIndex ns') !! x)) as Hiff.
    { rewrite !allValues_identity. unfold identity.
      split; intros (n & Hn & ?); exists n; (split; [|done]).
      - by rewrite <- Hp.
      - by rewrite Hp. }
    destruct (allValues (buildIndex ns) !! x) as [b|] eqn:Hb,
             (allValues (buildIndex ns') !! x) as [b'|] eqn:Hb'.
    + apply allValues_true in Hb, Hb'. congruence.
    + destruct Hiff as [Hiff _]. by destruct Hiff.
    + destruct Hiff as [_ Hiff]. by destruct Hiff.
    + done.
  - intros k x. rewrite !dependedOnBy_edge. unfold edge.
    split; intros (n & Hn & ?); exists n; (split; [|done]).
    + by rewrite <- Hp.
    + by rewrite Hp.
Qed.

Lemma nextLayer_sameIndex ix ix' visited cur cur' :
  sameIndex ix ix' → cur ≡ₚ cur' →
  nextLayer ix visited cur ≡ₚ nextLayer ix' visited cur'.
Proof.
  intros (Hd & _ & Hr) Hp. apply NoDup_Permutation; try apply NoDup_nextLayer.
  intros x. rewrite !elem_of_nextLayer. unfold eligible, allDepsVisited.
  rewrite Hd.
  split; intros (v & Hv & Hx & He); exists v.
  - rewrite <- Hp, <- Hr. done.
  - rewrite Hp, Hr. done.
Qed.

Lemma peel_sameIndex ix ix' fuel cur cur' visited
    (result result' : list (list T)) :
  sameIndex ix ix' → cur ≡ₚ cur' → Forall2 (≡ₚ) result result' →
  sameRuns (peel fuel ix cur visited result) (peel fuel ix' cur' visited result').
Proof.
  intros Hix. revert cur cur' visited result result'.
  induction fuel as [|fuel IH]; intros cur cur' visited result result' Hc Hr.
  - destruct cur as [|c cur], cur' as [|c' cur']; simpl; try done.
    + by apply Permutation_nil_cons in Hc.
    + symmetry in Hc. by apply Permutation_nil_cons in Hc.
  - destruct cur as [|c cur], cur' as [|c' cur']; try done.
    + by apply Permutation_nil_cons in Hc.
    + symmetry in Hc. by apply Permutation_nil_cons in Hc.
    + cbn [peel]. rewrite <- (markVisited_perm _ _ visited Hc).
      apply IH.
      * by apply nextLayer_sameIndex.
      * apply Forall2_app; [done|]. by constructor.
Qed.

Lemma firstLayer_sameIndex (o o' : list T → list T) ix ix' :
  rangeOrder o → rangeOrder o' → sameIndex ix ix' →
  firstLayer o ix ≡ₚ firstLayer o' ix'.
Proof.
  intros Ho Ho' (Hd & Ha & _).
  apply NoDup_Permutation; try by apply NoDup_firstLayer.
  intros x. rewrite !elem_of_firstLayer by done. unfold noDeps.
  by rewrite Hd, Ha.
Qed.

Lemma cycleCheck_sameIndex (o o' : list T → list T) ix ix' visited :
  rangeOrder o → rangeOrder o' → sameIndex ix ix' →
  cycleCheck o ix visited = cycleCheck o' ix' visited.
Proof.
  intros Ho Ho' (Hd & Ha & _). apply eq_true_iff_eq.
  rewrite !cycleCheck_true by done. unfold stuck. by rewrite Hd, Ha.
Qed.

(** When no value is added twice, the order of the [AddNode] calls does
    not matter: two graphs holding the same nodes are sorted into the same
    error, or into as many layers with the same values at each index. *)
Theorem SortByLayers_insertion_order (o1 o2 o1' o2' : list T → list T) g g' :
  rangeOrder o1 → rangeOrder o2 → rangeOrder o1' → rangeOrder o2' →
  NoDup (value <$> nodes g) →
  nodes g ≡ₚ nodes g' →
  ∃ out out',
    (SortByLayers o1 o2 g).1 = Some out
    ∧ (SortByLayers o1' o2' g').1 = Some out'
    ∧ out.2 = out'.2
    ∧ Forall2 (≡ₚ) out.1 out'.1.
Proof.
  intros Ho1 Ho2 Ho1' Ho2' Hnd Hp. simpl.
  pose proof (buildIndex_perm _ _ Hnd Hp) as Hix.
  destruct (sortNodes_total o1 o2 (nodes g) Ho1) as (res & vis & Hr & _ & ->).
  destruct (sortNodes_total o1' o2' (nodes g') Ho1') as (res' & vis' & Hr' & _ & ->).
  pose proof (peel_sameIndex _ _ (size (allValues (buildIndex (nodes g))))
    _ _ ∅ [] [] Hix (firstLayer_sameIndex o1 o1' _ _ Ho1 Ho1' Hix)
    (Forall2_nil_2 _ _ _)) as Hs.
  rewrite Hr in Hs. destruct Hix as (Hd & Ha & Hb). rewrite Ha, Hr' in Hs.
  destruct Hs as [Hl <-].
  rewrite (cycleCheck_sameIndex o2 o2' _ (buildIndex (nodes g')) vis Ho2 Ho2')
    by done.
  eexists _, _. split; [done|]. split; [done|].
  destruct (cycleCheck o2' _ vis); simpl; [by split|by split].
Qed.

End InsertionOrder.

(** * The checker of the example tests *)

Section Checker.
Context {T : Type} `{Countable T}.
Implicit Types (g : Graph T) (layers : list (list T)) (x nd dep : T).
Implicit Types (nodeLayer : gmap T nat) (log : list (report T)).

Lemma lookup_index_layer (i : nat) (layer : list T) nodeLayer x :
  foldl (λ m nd, <[nd := i]> m) nodeLayer layer !! x
  = if decide (x ∈ layer) then Some i else nodeLayer !! x.
Proof.
  revert nodeLayer. induction layer as [|y layer IH]; intros nodeLayer; cbn [foldl].
  - case_decide as Hx; [by apply elem_of_nil in Hx|done].
  - rewrite IH. destruct (decide (x ∈ layer)) as [Hc|Hc].
    + rewrite decide_True; [done|by right].
    + rewrite lookup_insert. destruct (decide (y = x)) as [->|Hne].
      * rewrite decide_True; [done|by left].
      * rewrite decide_False; [done|]. intros [?|?]%elem_of_cons; congruence.
Qed.

Lemma lastLayer_here l layers x :
  lastLayer (l :: layers) x 0 ↔ x ∈ l ∧ x ∉ concat layers.
Proof.
  unfold lastLayer. simpl. rewrite drop_0. split.
  - intros [(l' & [= <-] & ?) ?]. done.
  - intros [? ?]. eauto.
Qed.

Lemma lastLayer_later l layers x k :
  lastLayer (l :: layers) x (S k) ↔ lastLayer layers x k.
Proof. done. Qed.

(** [nodeLayer] maps a value to the index of the last layer holding it. *)
Lemma lookup_indexLayers i layers nodeLayer x k :
  indexLayers i layers nodeLayer !! x = Some k
  ↔ (∃ j, k = i + j ∧ lastLayer layers x j)
    ∨ ((x ∉ concat layers) ∧ nodeLayer !! x = Some k).
Proof.
  revert i nodeLayer. induction layers as [|l layers IH]; intros i nodeLayer.
  - simpl. split.
    + intros Hx. right. split; [by intros ?%elem_of_nil|done].
    + intros [(j & _ & [(l & Hl & _) _])|[_ ?]]; done.
  - cbn [indexLayers]. rewrite IH, lookup_index_layer. simpl. split.
    + intros [(j & -> & Hj)|[Hn Hx]].
      * left. exists (S j). split; [lia|done].
      * destruct (decide (x ∈ l)) as [Hl|Hl].
        -- injection Hx as <-. left. exists 0. split; [lia|].
           by apply lastLayer_here.
        -- right. split; [|done]. rewrite elem_of_app. tauto.
    + intros [([|j] & -> & Hj)|[Hn Hx]].
      * apply lastLayer_here in Hj as [Hl Hn]. right. split; [done|].
        rewrite decide_True by done. f_equal. lia.
      * left. exists j. split; [lia|done].
      * right. rewrite elem_of_app in Hn. split; [tauto|].
        rewrite decide_False by tauto. done.
Qed.

Lemma lookup_indexLayers_0 layers x k :
  indexLayers 0 layers ∅ !! x = Some k ↔ lastLayer layers x k.
Proof.
  rewrite lookup_indexLayers. split.
  - intros [(j & -> & ?)|[_ Hx]]; [done|]. by rewrite lookup_empty in Hx.
  - intros Hk. left. by exists k.
Qed.

Lemma checkDep_nil nodeLayer nd ni log dep :
  checkDep nodeLayer nd ni log dep = [] ↔ log = [] ∧ depOk nodeLayer ni dep.
Proof.
  unfold checkDep, depOk. destruct (nodeLayer !! dep) as [di|].
  - destruct (Nat.leb_spec ni di).
    + split; [by intros [? ?]%app_eq_nil|]. intros [_ (? & [= <-] & ?)]. lia.
    + split; [|tauto]. intros ->. split; [done|]. eauto.
  - split; [by intros [? ?]%app_eq_nil|]. by intros [_ (? & ? & _)].
Qed.

Lemma checkDeps_nil nodeLayer nd ni (deps : list T) log :
  foldl (checkDep nodeLayer nd ni) log deps = []
  ↔ log = [] ∧ ∀ dep, dep ∈ deps → depOk nodeLayer ni dep.
Proof.
  revert log. induction deps as [|dep deps IH]; intros log; simpl.
  - split; [|tauto]. intros ->. split; [done|]. by intros ? ?%elem_of_nil.
  - rewrite IH, checkDep_nil. split.
    + intros [[-> ?] Hall]. split; [done|].
      intros d [->|?]%elem_of_cons; auto.
    + intros [-> Hall]. split; [split; [done|]|].
      * apply Hall. by left.
      * intros d Hd. apply Hall. by right.
Qed.

Lemma checkNode_nil nodeLayer log entry :
  checkNode nodeLayer log entry = [] ↔ log = [] ∧ entryOk nodeLayer entry.
Proof.
  unfold checkNode, entryOk. destruct (nodeLayer !! entry.1) as [ni|].
  - rewrite checkDeps_nil. split.
    + intros [-> ?]. eauto.
    + intros [-> (? & [= <-] & ?)]. done.
  - split; [by intros [? ?]%app_eq_nil|]. by intros [_ (? & ? & _)].
Qed.

Lemma checkNodes_nil nodeLayer (entries : list (T * list T)) log :
  foldl (checkNode nodeLayer) log entries = []
  ↔ log = [] ∧ ∀ entry, entry ∈ entries → entryOk nodeLayer entry.
Proof.
  revert log. induction entries as [|e entries IH]; intros log; simpl.
  - split; [|tauto]. intros ->. split; [done|]. by intros ? ?%elem_of_nil.
  - rewrite IH, checkNode_nil. split.
    + intros [[-> ?] Hall]. split; [done|].
      intros d [->|?]%elem_of_cons; auto.
    + intros [-> Hall]. split; [split; [done|]|].
      * apply Hall. by left.
      * intros d Hd. apply Hall. by right.
Qed.

(** [validateLayerDependencies] makes no report exactly when every key
    of [dependencies] is in some layer and each of its dependencies is in
    some layer too, the last layer holding the dependency coming strictly
    before the last layer holding the key. *)
Theorem validateLayerDependencies_silent_iff
    (order : list (T * list T) → list (T * list T))
    layers (dependencies : gmap T (list T)) :
  rangeOrder order →
  validateLayerDependencies order layers dependencies = []
  ↔ ∀ nd ds, dependencies !! nd = Some ds →
      ∃ ni, lastLayer layers nd ni
            ∧ ∀ dep, dep ∈ ds → ∃ di, lastLayer layers dep di ∧ di < ni.
Proof.
  intros Ho. unfold validateLayerDependencies. rewrite checkNodes_nil.
  split.
  - intros [_ Hall] nd ds Hnd.
    destruct (Hall (nd, ds)) as (ni & Hni & Hdeps).
    { rewrite (Ho _). by apply elem_of_map_to_list. }
    simpl in *. exists ni. split; [by apply lookup_indexLayers_0|].
    intros dep Hdep. destruct (Hdeps dep Hdep) as (di & Hdi & Hlt).
    exists di. split; [by apply lookup_indexLayers_0|done].
  - intros Hall. split; [done|]. intros [nd ds] Hin.
    rewrite (Ho _) in Hin. apply elem_of_map_to_list in Hin.
    destruct (Hall nd ds Hin) as (ni & Hni & Hdeps).
    exists ni. simpl. split; [by apply lookup_indexLayers_0|].
    intros dep Hdep. destruct (Hdeps dep Hdep) as (di & Hdi & Hlt).
    exists di. split; [by apply lookup_indexLayers_0|done].
Qed.

Lemma lastLayer_unique layers k l x :
  NoDup (concat layers) → layers !! k = Some l → x ∈ l → lastLayer layers x k.
Proof.
  intros Hnd Hk Hx. split; [eauto|].
  intros (j & l' & Hj & Hx')%elem_of_concat_lookup.
  rewrite lookup_drop in Hj.
  pose proof (layer_index_unique layers k (S k + j) l l' x Hnd Hk Hj Hx Hx').
  lia.
Qed.

(** The checker accepts every successful sort: given the layers
    [SortByLayers] returns and any part of the [dependsOn] map of the
    graph, it makes no report. *)
Theorem validateLayerDependencies_accepts_sort
    (o1 o2 : list T → list T) (order : list (T * list T) → list (T * list T))
    g g' layers (dependencies : gmap T (list T)) :
  rangeOrder o1 → rangeOrder o2 → rangeOrder order →
  SortByLayers o1 o2 g = (Some (layers, None), g') →
  dependencies ⊆ dependsOn (buildIndex (nodes g)) →
  validateLayerDependencies order layers dependencies = [].
Proof.
  intros Ho1 Ho2 Ho [= Hs _] Hsub. unfold validateLayerDependencies.
  apply checkNodes_nil. split; [done|]. intros [nd ds] Hnd.
  rewrite (Ho _) in Hnd. apply elem_of_map_to_list in Hnd.
  pose proof (lookup_weaken _ _ _ _ Hnd Hsub) as Hds.
  destruct (sortNodes_success _ _ _ _ Ho1 Hs) as (vis & HI & _).
  pose proof (inv_nodup _ _ _ _ _ HI) as Hndl. rewrite app_nil_r in Hndl.
  assert (identity (nodes g) nd) as Hid.
  { apply dependsOn_Some in Hds as (n & ? & ? & _). exists n. auto. }
  apply (sortNodes_covers o1 o2 _ layers) in Hid; [|done..].
  apply elem_of_concat_lookup in Hid as (ni & li & Hni & Hin).
  exists ni. simpl. split; [by eapply lookup_indexLayers_0, lastLayer_unique|].
  intros dep Hdep.
  destruct (elem_of_concat_take layers ni dep) as (di & ld & Hlt & Hdi & Hdin).
  { eapply (inv_order _ _ _ _ _ HI); [done..|]. unfold listAt. by rewrite Hds. }
  exists di. split; [by eapply lookup_indexLayers_0, lastLayer_unique|done].
Qed.

End Checker.

(** * What the layer of a value depends on *)

Section Stability.
Context {T : Type} `{Countable T}.
Implicit Types (g : Graph T) (ns : list (node T)) (layers : list (list T)).
Implicit Types (x y d p : T).

(** The rules a successful layering obeys. *)
Lemma layer_rules (o1 o2 : list T → list T) ns layers :
  rangeOrder o1 → rangeOrder o2 →
  sortNodes o1 o2 ns = Some (layers, None) →
  (∀ x, inLayer layers 0 x ↔ identity ns x ∧ noDeps (buildIndex ns) x = true)
  ∧ (∀ j x, inLayer layers (S j) x → ∃ p, inLayer layers j p ∧ kept ns x p)
  ∧ (∀ i x d, inLayer layers i x → kept ns x d → ∃ k, k < i ∧ inLayer layers k d)
  ∧ (∀ i k x, inLayer layers i x → inLayer layers k x → i = k)
  ∧ (∀ x, identity ns x → ∃ i, inLayer layers i x).
Proof.
  intros Ho1 Ho2 Hs.
  destruct (sortNodes_success _ _ _ _ Ho1 Hs) as (vis & HI & _).
  pose proof (inv_nodup _ _ _ _ _ HI) as Hnd. rewrite app_nil_r in Hnd.
  pose proof (inv_head _ _ _ _ _ HI) as Hh.
  split; [|split; [|split; [|split]]].
  - intros x. rewrite <- allValues_identity, <- (elem_of_firstLayer o1) by done.
    unfold inLayer. destruct layers as [|l0 rest]; simpl in *.
    + injection Hh as <-. split; [by intros (l & ? & _)|by intros ?%elem_of_nil].
    + injection Hh as <-. split; [by intros (l & [= <-] & ?)|eauto].
  - intros j x (l & Hl & Hx).
    destruct (inv_tight _ _ _ _ _ HI j l x Hl Hx) as (lp & p & ? & ? & ?).
    exists p. split; [by exists lp|done].
  - intros i x d (l & Hl & Hx) Hd.
    destruct (elem_of_concat_take layers i d) as (k & lk & ? & ? & ?).
    { by eapply (inv_order _ _ _ _ _ HI). }
    exists k. split; [done|by exists lk].
  - intros i k x (l & Hl & Hx) (l' & Hl' & Hx').
    by eapply (layer_index_unique layers i k l l' x).
  - intros x Hx. apply (sortNodes_covers o1 o2 ns layers) in Hx; [|done..].
    apply elem_of_concat_lookup in Hx as (i & l & ? & ?). exists i, l. done.
Qed.

(** Two successful sorts place a value in the same layer when they agree
    on the [dependsOn] entries of the value and of all it depends on. *)
Lemma layers_agree (o1 o2 o1' o2' : list T → list T) ns ns' layers layers'
    (P : T → Prop) :
  rangeOrder o1 → rangeOrder o2 → rangeOrder o1' → rangeOrder o2' →
  sortNodes o1 o2 ns = Some (layers, None) →
  sortNodes o1' o2' ns' = Some (layers', None) →
  (∀ x, P x → identity ns' x) →
  (∀ x, P x → dependsOn (buildIndex ns) !! x = dependsOn (buildIndex ns') !! x) →
  (∀ x d, P x → kept ns x d → P d) →
  ∀ i x, P x → inLayer layers i x → inLayer layers' i x.
Proof.
  intros Ho1 Ho2 Ho1' Ho2' Hs Hs' Hid Hsame Hclosed.
  destruct (layer_rules o1 o2 ns layers Ho1 Ho2 Hs)
    as (Hzero & Htight & Hord & _ & _).
  destruct (layer_rules o1' o2' ns' layers' Ho1' Ho2' Hs')
    as (Hzero' & Htight' & Hord' & Huniq' & Hcov').
  assert (Hkept : ∀ x d, P x → kept ns x d ↔ kept ns' x d).
  { intros x d Hx. unfold kept, listAt. by rewrite (Hsame x Hx). }
  intros i. induction (lt_wf i) as [i _ IH]. intros x Hx Hi.
  destruct (Hcov' x (Hid x Hx)) as (i' & Hi').
  destruct i as [|j].
  - apply Hzero'. split; [by apply Hid|].
    apply Hzero in Hi as [_ Hno]. unfold noDeps in *. by rewrite <- (Hsame x Hx).
  - destruct (Htight j x Hi) as (p & Hpj & Hxp).
    assert (inLayer layers' j p) as Hpj'.
    { apply IH; [lia|by eapply Hclosed|done]. }
    destruct i' as [|j'].
    + exfalso. apply Hzero' in Hi' as [_ Hno].
      apply (Hkept x p Hx) in Hxp. apply noDeps_listAt in Hno.
      unfold kept in Hxp. rewrite Hno in Hxp. by apply elem_of_nil in Hxp.
    + destruct (Hord' (S j') x p Hi') as (k & Hk & Hpk); [by apply Hkept|].
      pose proof (Huniq' _ _ _ Hpj' Hpk) as <-.
      destruct (Htight' j' x Hi') as (q & Hqj' & Hxq).
      apply (Hkept x q Hx) in Hxq.
      destruct (Hord (S j) x q Hi Hxq) as (m & Hm & Hqm).
      assert (inLayer layers' m q) as Hqm'.
      { apply IH; [lia|by eapply Hclosed|done]. }
      pose proof (Huniq' _ _ _ Hqj' Hqm') as ->.
      replace (S j) with (S m) by lia. done.
Qed.

(** Adding a node whose value the graph does not mention moves nothing:
    when the sorts before and after both succeed, every identity of the
    graph is at the same layer index in both. *)
Theorem AddNode_fresh_keeps_layers (o1 o2 o1' o2' : list T → list T)
    g g1 g2 v ds layers layers' :
  rangeOrder o1 → rangeOrder o2 → rangeOrder o1' → rangeOrder o2' →
  ¬ identity (nodes g) v →
  SortByLayers o1 o2 g = (Some (layers, None), g1) →
  SortByLayers o1' o2' (AddNode v ds g).2 = (Some (layers', None), g2) →
  ∀ i x, identity (nodes g) x → inLayer layers i x ↔ inLayer layers' i x.
Proof.
  intros Ho1 Ho2 Ho1' Ho2' Hfresh [= Hs _] [= Hs' _]. simpl in Hs'.
  assert (Hfwd : ∀ i x, identity (nodes g) x →
                        inLayer layers i x → inLayer layers' i x).
  { apply (layers_agree o1 o2 o1' o2' (nodes g) (nodes g ++ [mkNode v ds]));
      try done.
    - intros x (n & Hn & Hx). exists n. rewrite elem_of_app. auto.
    - intros x Hx. rewrite buildIndex_snoc, addEntry_dependsOn. simpl.
      rewrite lookup_insert_ne; [done|]. by intros ->.
    - intros x d _ Hd. apply allValues_identity. by apply (kept_identity _ x d). }
  intros i x Hx. split; [by apply Hfwd|]. intros Hi'.
  destruct (layer_rules o1 o2 (nodes g) layers Ho1 Ho2 Hs) as (_ & _ & _ & _ & Hcov).
  destruct (layer_rules o1' o2' _ layers' Ho1' Ho2' Hs') as (_ & _ & _ & Huniq' & _).
  destruct (Hcov x Hx) as (k & Hk).
  by rewrite (Huniq' i k x Hi' (Hfwd k x Hx Hk)).
Qed.

Lemma sortNodes_error_iff_kept_cycle (o1 o2 : list T → list T) ns :
  rangeOrder o1 → rangeOrder o2 →
  sortNodes o1 o2 ns = Some ([], Some ErrCyclicDependency)
  ↔ ∃ x, tc (kept ns) x x.
Proof.
  intros Ho1 Ho2. split; [|intros [x Hx]; by eapply sortNodes_kept_cycle].
  destruct (sortNodes_total o1 o2 ns Ho1) as (res & vis & _ & HI & ->).
  pose proof (cycleCheck_iff_cycle o2 ns _ vis res Ho2 HI) as Hiff.
  destruct (cycleCheck o2 _ vis); [intros _; by apply Hiff|done].
Qed.

Lemma tc_last_edge (R : T → T → Prop) a b : tc R a b → ∃ y, R y b.
Proof. induction 1; eauto. Qed.

Lemma kept_snoc_other ns v ds x d :
  x ≠ v → kept (ns ++ [mkNode v ds]) x d ↔ kept ns x d.
Proof.
  intros Hne. unfold kept, listAt.
  rewrite buildIndex_snoc, addEntry_dependsOn. simpl.
  by rewrite lookup_insert_ne.
Qed.

Lemma kept_snoc_self ns v ds d :
  kept (ns ++ [mkNode v ds]) v d ↔ d ∈ ds.
Proof.
  unfold kept, listAt. rewrite buildIndex_snoc, addEntry_dependsOn. simpl.
  by rewrite lookup_insert_eq.
Qed.

(** Adding a node whose value the graph does not mention, and which does
    not depend on itself, neither creates nor removes a cycle: the sort
    fails after the call exactly when it failed before. *)
Theorem AddNode_fresh_same_error (o1 o2 o1' o2' : list T → list T) g v ds :
  rangeOrder o1 → rangeOrder o2 → rangeOrder o1' → rangeOrder o2' →
  ¬ identity (nodes g) v → v ∉ ds →
  (SortByLayers o1 o2 g).1 = Some ([], Some ErrCyclicDependency)
  ↔ (SortByLayers o1' o2' (AddNode v ds g).2).1
    = Some ([], Some ErrCyclicDependency).
Proof.
  intros Ho1 Ho2 Ho1' Ho2' Hfresh Hself. simpl.
  rewrite !sortNodes_error_iff_kept_cycle by done.
  set (ns' := nodes g ++ [mkNode v ds]).
  assert (Hsrc : ∀ a b, kept (nodes g) a b → a ≠ v).
  { intros a b Hab ->. apply Hfresh, allValues_identity.
    by apply (kept_identity _ v b). }
  assert (Htgt : ∀ a b, kept ns' a b → b ≠ v).
  { intros a b Hab ->. destruct (decide (a = v)) as [->|Ha].
    - by apply kept_snoc_self in Hab.
    - apply kept_snoc_other in Hab; [|done]. apply Hfresh, allValues_identity.
      by apply (kept_identity _ a v). }
  assert (Hup : ∀ a b, tc (kept (nodes g)) a b → tc (kept ns') a b).
  { intros a b Hab. induction Hab as [a b He|a b c He _ IH].
    - apply tc_once. apply kept_snoc_other; [by eapply Hsrc|done].
    - eapply tc_l; [|done]. apply kept_snoc_other; [by eapply Hsrc|done]. }
  assert (Hdown : ∀ a b, tc (kept ns') a b → a ≠ v → tc (kept (nodes g)) a b).
  { intros a b Hab. induction Hab as [a b He|a b c He _ IH]; intros Ha.
    - apply tc_once. by apply (kept_snoc_other _ v ds).
    - eapply tc_l; [by apply (kept_snoc_other _ v ds)|].
      apply IH. by eapply Htgt. }
  split; intros [x Hx]; exists x; [by apply Hup|].
  apply Hdown; [done|].
  destruct (tc_last_edge _ _ _ Hx) as [y Hy]. by eapply Htgt.
Qed.

(** Each layer is maximal: on success, an identity whose kept
    dependencies are all in layers before index [i] is itself in a layer
    of index at most [i]. *)
Theorem SortByLayers_layers_maximal (o1 o2 : list T → list T) g g' layers i x :
  rangeOrder o1 → rangeOrder o2 →
  SortByLayers o1 o2 g = (Some (layers, None), g') →
  identity (nodes g) x →
  (∀ d, kept (nodes g) x d → ∃ k, k < i ∧ inLayer layers k d) →
  ∃ k, k ≤ i ∧ inLayer layers k x.
Proof.
  intros Ho1 Ho2 [= Hs _] Hx Hdeps.
  destruct (layer_rules o1 o2 (nodes g) layers Ho1 Ho2 Hs)
    as (_ & Htight & _ & Huniq & Hcov).
  destruct (Hcov x Hx) as ([|j] & Hk).
  - exists 0. split; [lia|done].
  - destruct (Htight j x Hk) as (p & Hp & Hxp).
    destruct (Hdeps p Hxp) as (k & Hlt & Hpk).
    pose proof (Huniq _ _ _ Hp Hpk) as ->.
    exists (S k). split; [lia|done].
Qed.

End Stability.

(** * The scenarios of the test suite, and graphs with a repeated value *)

Section Orders.
Context {T : Type}.

Lemma rangeOrder_id : rangeOrder (@id (list T)).
Proof. by intros l. Qed.

Lemma rangeOrder_reverse : rangeOrder (@reverse T).
Proof. intros l. apply reverse_Permutation. Qed.

End Orders.

Open Scope string_scope.

Example chain_layers :
  (SortByLayers id id chainGraph).1 = Some ([["A"]; ["B"]; ["C"]], None).
Proof. vm_compute. reflexivity. Qed.

Example mixed_layers :
  (SortByLayers id reverse mixedGraph).1
  = Some ([["A"; "B"]; ["C"; "F"; "D"]; ["E"]], None).
Proof. vm_compute. reflexivity. Qed.

Example cyclic_error :
  (SortByLayers reverse id cyclicGraph).1 = Some ([], Some ErrCyclicDependency).
Proof. vm_compute. reflexivity. Qed.

(** C1, at a graph with a repeated value: the edge from [X] to [B] is
    recorded, [SortByLayers] succeeds with a single layer, and that layer
    holds both [X] and [B]. *)
Theorem readded_node_breaks_ordering (o1 o2 : list string → list string) :
  rangeOrder o1 → rangeOrder o2 →
  edge (nodes readdedGraph) "X" "B"
  ∧ ∃ l, (SortByLayers o1 o2 readdedGraph).1 = Some ([l], None)
         ∧ "X" ∈ l ∧ "B" ∈ l.
Proof.
  intros Ho1 Ho2. split.
  - exists (mkNode "X" ["B"]). split; [by left|]. split; [done|by left].
  - destruct (sortNodes_by_reference o1 o2 (nodes readdedGraph)
                ([["B"; "X"]], None) Ho1 Ho2) as ([ls e] & Hs & He & Hl).
    { vm_compute. reflexivity. }
    simpl in He, Hl. subst e.
    apply Forall2_cons_inv_r in Hl as (l & ls' & Hp & Hnil & ->).
    apply Forall2_nil_inv_r in Hnil as ->.
    exists l. split; [done|]. rewrite Hp. split; [by right; left|by left].
Qed.

(** C3, at graphs with a repeated value: [A] and [B] depend on each
    other, or [A] depends on itself, and [SortByLayers] returns layers and
    no error. *)
Theorem masked_cycle_not_detected (o1 o2 : list string → list string) :
  rangeOrder o1 → rangeOrder o2 →
  (edge (nodes maskedCycleGraph) "A" "B" ∧ edge (nodes maskedCycleGraph) "B" "A"
   ∧ (SortByLayers o1 o2 maskedCycleGraph).1 = Some ([["A"]; ["B"]], None))
  ∧ (edge (nodes maskedSelfGraph) "A" "A"
     ∧ (SortByLayers o1 o2 maskedSelfGraph).1 = Some ([["A"]], None)).
Proof.
  intros Ho1 Ho2. split; [split; [|split]|split].
  - exists (mkNode "A" ["B"]). split; [by left|]. split; [done|by left].
  - exists (mkNode "B" ["A"]). split; [by right; left|]. split; [done|by left].
  - destruct (sortNodes_by_reference o1 o2 (nodes maskedCycleGraph)
                ([["A"]; ["B"]], None) Ho1 Ho2) as ([ls e] & Hs & He & Hl).
    { vm_compute. reflexivity. }
    simpl in He, Hl. subst e.
    apply Forall2_cons_inv_r in Hl as (l1 & ls1 & Hp1 & Hl & ->).
    apply Forall2_cons_inv_r in Hl as (l2 & ls2 & Hp2 & Hl & ->).
    apply Forall2_nil_inv_r in Hl as ->.
    apply Permutation_singleton_r in Hp1 as ->.
    by apply Permutation_singleton_r in Hp2 as ->.
  - exists (mkNode "A" ["A"]). split; [by left|]. split; [done|by left].
  - destruct (sortNodes_by_reference o1 o2 (nodes maskedSelfGraph)
                ([["A"]], None) Ho1 Ho2) as ([ls e] & Hs & He & Hl).
    { vm_compute. reflexivity. }
    simpl in He, Hl. subst e.
    apply Forall2_cons_inv_r in Hl as (l1 & ls1 & Hp1 & Hl & ->).
    apply Forall2_nil_inv_r in Hl as ->.
    by apply Permutation_singleton_r in Hp1 as ->.
Qed.

(** C4, at a graph where [X] is added with two lists: [dependsOn] keeps
    the later list only, and [X] is placed in the same layer as [B], an
    entry of its earlier list. *)
Theorem later_list_replaces_earlier (o1 o2 : list string → list string) :
  rangeOrder o1 → rangeOrder o2 →
  mkNode "X" ["B"] ∈ nodes twoListsGraph
  ∧ mkNode "X" ["A"] ∈ nodes twoListsGraph
  ∧ dependsOn (buildIndex (nodes twoListsGraph)) !! "X" = Some ["A"]
  ∧ ∃ l, (SortByLayers o1 o2 twoListsGraph).1 = Some ([["A"]; l], None)
         ∧ "X" ∈ l ∧ "B" ∈ l.
Proof.
  intros Ho1 Ho2. split; [by left|]. split; [by right; left|].
  split; [vm_compute; reflexivity|].
  destruct (sortNodes_by_reference o1 o2 (nodes twoListsGraph)
              ([["A"]; ["X"; "B"]], None) Ho1 Ho2) as ([ls e] & Hs & He & Hl).
  { vm_compute. reflexivity. }
  simpl in He, Hl. subst e.
  apply Forall2_cons_inv_r in Hl as (l1 & ls1 & Hp1 & Hl & ->).
  apply Forall2_cons_inv_r in Hl as (l2 & ls2 & Hp2 & Hl & ->).
  apply Forall2_nil_inv_r in Hl as ->.
  apply Permutation_singleton_r in Hp1 as ->.
  exists l2. split; [done|]. rewrite Hp2. split; [by left|by right; left].
Qed.

(** * The properties at the scenarios *)

Lemma SortByLayers_coverage_witness :
  NoDup (concat [["A"; "B"]; ["C"; "F"; "D"]; ["E"]])
  ∧ ∀ x, x ∈ concat [["A"; "B"]; ["C"; "F"; "D"]; ["E"]]
         ↔ identity (nodes mixedGraph) x.
Proof.
  apply (SortByLayers_coverage id reverse mixedGraph mixedGraph).
  - apply rangeOrder_id.
  - apply rangeOrder_reverse.
  - vm_compute. reflexivity.
Defined.

Lemma SortByLayers_tight_witness :
  ∃ lp p, [["A"; "B"]; ["C"; "F"; "D"]; ["E"]] !! 1 = Some lp ∧ p ∈ lp
          ∧ edge (nodes mixedGraph) "E" p
          ∧ p ∈ listAt (dependsOn (buildIndex (nodes mixedGraph))) "E".
Proof.
  apply (SortByLayers_tight id reverse mixedGraph mixedGraph _ 1 ["E"] "E").
  - apply rangeOrder_id.
  - apply rangeOrder_reverse.
  - vm_compute. reflexivity.
  - reflexivity.
  - by left.
Defined.

Lemma SortByLayers_error_iff_witness :
  ∃ res vis,
    peel (size (allValues (buildIndex (nodes cyclicGraph))))
         (buildIndex (nodes cyclicGraph))
         (firstLayer id (buildIndex (nodes cyclicGraph))) ∅ [] = Some (res, vis)
    ∧ ((∃ n, n ∈ nodes cyclicGraph ∧ deps n ≠ [] ∧ isSet vis (value n) = false)
       → (SortByLayers id reverse cyclicGraph).1
         = Some ([], Some ErrCyclicDependency))
    ∧ (¬ (∃ n, n ∈ nodes cyclicGraph ∧ deps n ≠ [] ∧ isSet vis (value n) = false)
       → (SortByLayers id reverse cyclicGraph).1 = Some (res, None)).
Proof.
  apply (SortByLayers_error_iff id reverse cyclicGraph).
  - apply rangeOrder_id.
  - apply rangeOrder_reverse.
Defined.

Lemma SortByLayers_first_layer_witness :
  (∀ (g g' : Graph string) l0 rest,
     SortByLayers reverse id g = (Some (l0 :: rest, None), g') →
     NoDup l0
     ∧ ∀ x, x ∈ l0 ↔
         identity (nodes g) x
         ∧ (dependsOn (buildIndex (nodes g)) !! x = None
            ∨ dependsOn (buildIndex (nodes g)) !! x = Some []))
  ∧ (∀ X Y : string, X ≠ Y →
       (SortByLayers reverse id (build [(X, [Y])])).1 = Some ([[Y]; [X]], None)).
Proof.
  apply (SortByLayers_first_layer reverse id).
  - apply rangeOrder_reverse.
  - apply rangeOrder_id.
Defined.

Lemma SortByLayers_deterministic_witness :
  ∃ out out',
    (SortByLayers id id mixedGraph).1 = Some out
    ∧ (SortByLayers reverse reverse (SortByLayers id id mixedGraph).2).1
      = Some out'
    ∧ out.2 = out'.2
    ∧ Forall2 (≡ₚ) out.1 out'.1.
Proof.
  apply (SortByLayers_deterministic id id reverse reverse mixedGraph).
  - apply rangeOrder_id.
  - apply rangeOrder_id.
  - apply rangeOrder_reverse.
  - apply rangeOrder_reverse.
Defined.

Lemma SortByLayers_layers_nonempty_witness :
  (∀ (g g' : Graph string) layers,
     SortByLayers id reverse g = (Some (layers, None), g') →
     Forall (λ l, l ≠ []) layers)
  ∧ SortByLayers id reverse (emptyGraph : Graph string)
    = (Some ([], None), emptyGraph).
Proof.
  apply (SortByLayers_layers_nonempty id reverse).
  - apply rangeOrder_id.
  - apply rangeOrder_reverse.
Defined.

Lemma readded_node_breaks_ordering_witness :
  edge (nodes readdedGraph) "X" "B"
  ∧ ∃ l, (SortByLayers reverse id readdedGraph).1 = Some ([l], None)
         ∧ "X" ∈ l ∧ "B" ∈ l.
Proof.
  apply (readded_node_breaks_ordering reverse id).
  - apply rangeOrder_reverse.
  - apply rangeOrder_id.
Defined.

Lemma masked_cycle_not_detected_witness :
  (edge (nodes maskedCycleGraph) "A" "B" ∧ edge (nodes maskedCycleGraph) "B" "A"
   ∧ (SortByLayers id id maskedCycleGraph).1 = Some ([["A"]; ["B"]], None))
  ∧ (edge (nodes maskedSelfGraph) "A" "A"
     ∧ (SortByLayers id id maskedSelfGraph).1 = Some ([["A"]], None)).
Proof.
  apply (masked_cycle_not_detected id id).
  - apply rangeOrder_id.
  - apply rangeOrder_id.
Defined.

Lemma later_list_replaces_earlier_witness :
  mkNode "X" ["B"] ∈ nodes twoListsGraph
  ∧ mkNode "X" ["A"] ∈ nodes twoListsGraph
  ∧ dependsOn (buildIndex (nodes twoListsGraph)) !! "X" = Some ["A"]
  ∧ ∃ l, (SortByLayers id reverse twoListsGraph).1 = Some ([["A"]; l], None)
         ∧ "X" ∈ l ∧ "B" ∈ l.
Proof.
  apply (later_list_replaces_earlier id reverse).
  - apply rangeOrder_id.
  - apply rangeOrder_reverse.
Defined.

Lemma SortByLayers_ordering_unique_witness :
  edge (nodes mixedGraph) "E" "D" ∧ 1 < 2.
Proof.
  split.
  - exists (mkNode "E" ["C"; "D"]).
    split; [by do 4 right; left|]. split; [done|by right; left].
  - apply (SortByLayers_ordering_unique id reverse mixedGraph mixedGraph
             [["A"; "B"]; ["C"; "F"; "D"]; ["E"]] 2 1 ["E"] ["C"; "F"; "D"] "E" "D").
    + apply rangeOrder_id.
    + apply rangeOrder_reverse.
    + apply (bool_decide_unpack _). vm_compute. reflexivity.
    + vm_compute. reflexivity.
    + exists (mkNode "E" ["C"; "D"]).
      split; [by do 4 right; left|]. split; [done|by right; left].
    + reflexivity.
    + by left.
    + reflexivity.
    + by do 2 right; left.
Defined.

Lemma SortByLayers_ordering_last_witness :
  dependsOn (buildIndex (nodes twoListsGraph)) !! "X" = Some ["A"] ∧ 0 < 1.
Proof.
  split; [vm_compute; reflexivity|].
  apply (SortByLayers_ordering_last id id twoListsGraph twoListsGraph
           [["A"]; ["X"; "B"]] [mkNode "X" ["B"]] (mkNode "X" ["A"])
           [mkNode "B" ["A"]] 1 0 ["X"; "B"] ["A"] "A").
  - apply rangeOrder_id.
  - apply rangeOrder_id.
  - reflexivity.
  - intros n' Hn'. apply list_elem_of_singleton in Hn' as ->. done.
  - vm_compute. reflexivity.
  - by left.
  - reflexivity.
  - by left.
  - reflexivity.
  - by left.
Defined.

Lemma SortByLayers_cycle_unique_witness :
  tc (edge (nodes cyclicGraph)) "A" "A"
  ∧ (SortByLayers id reverse cyclicGraph).1 = Some ([], Some ErrCyclicDependency).
Proof.
  assert (tc (edge (nodes cyclicGraph)) "A" "A") as Hcyc.
  { apply (tc_l _ _ "C"); [|apply (tc_l _ _ "B"); [|apply tc_once]].
    - exists (mkNode "A" ["C"]). split; [by left|]. split; [done|by left].
    - exists (mkNode "C" ["B"]). split; [by do 2 right; left|]. split; [done|by left].
    - exists (mkNode "B" ["A"]). split; [by right; left|]. split; [done|by left]. }
  split; [done|].
  apply (SortByLayers_cycle_unique id reverse cyclicGraph "A").
  - apply rangeOrder_id.
  - apply rangeOrder_reverse.
  - apply (bool_decide_unpack _). vm_compute. reflexivity.
  - done.
Defined.

Lemma SortByLayers_error_iff_cycle_witness :
  ((SortByLayers id reverse cyclicGraph).1 = Some ([], Some ErrCyclicDependency)
   ↔ ∃ x, tc (kept (nodes cyclicGraph)) x x)
  ∧ ((SortByLayers id reverse cyclicGraph).1 = Some ([], Some ErrCyclicDependency)
     → ∃ x, tc (edge (nodes cyclicGraph)) x x)
  ∧ ((¬ ∃ x, tc (kept (nodes cyclicGraph)) x x)
     → ∃ layers, (SortByLayers id reverse cyclicGraph).1 = Some (layers, None)).
Proof.
  apply (SortByLayers_error_iff_cycle id reverse cyclicGraph).
  - apply rangeOrder_id.
  - apply rangeOrder_reverse.
Defined.

Lemma AddNode_self_dependency_fails_witness :
  (SortByLayers id id (AddNode "A" ["C"; "A"] chainGraph).2).1
  = Some ([], Some ErrCyclicDependency).
Proof.
  apply (AddNode_self_dependency_fails id id chainGraph "A" ["C"; "A"]).
  - apply rangeOrder_id.
  - apply rangeOrder_id.
  - by right; left.
Defined.

Lemma SortByLayers_returns_bounded_witness :
  ∃ out, (SortByLayers reverse id mixedGraph).1 = Some out
         ∧ (length out.1 ≤ size (allValues (buildIndex (nodes mixedGraph))))%nat
         ∧ ∀ ids, (∀ x, identity (nodes mixedGraph) x → x ∈ ids) →
                  (length out.1 ≤ length ids)%nat.
Proof.
  apply (SortByLayers_returns_bounded reverse id mixedGraph).
  apply rangeOrder_reverse.
Defined.

Lemma SortByLayers_no_dependencies_witness :
  ∃ l, (SortByLayers id reverse looseGraph).1 = Some ([l], None)
       ∧ NoDup l ∧ ∀ x, x ∈ l ↔ ∃ n, n ∈ nodes looseGraph ∧ value n = x.
Proof.
  apply (SortByLayers_no_dependencies id reverse looseGraph).
  - apply rangeOrder_id.
  - apply rangeOrder_reverse.
  - discriminate.
  - intros n Hn. apply elem_of_cons in Hn as [->|Hn]; [reflexivity|].
    apply list_elem_of_singleton in Hn as ->. reflexivity.
Defined.

Lemma AddNode_then_sort_covers_witness :
  "D" ∈ concat [["A"; "Z"]; ["B"]; ["C"]; ["D"]]
  ∧ (∀ d, d ∈ ["C"; "Z"] → d ∈ concat [["A"; "Z"]; ["B"]; ["C"]; ["D"]])
  ∧ (∀ x, identity (nodes chainGraph) x
          → x ∈ concat [["A"; "Z"]; ["B"]; ["C"]; ["D"]])
  ∧ nodes (AddNode "D" ["C"; "Z"] chainGraph).2
    = (nodes chainGraph ++ [mkNode "D" ["C"; "Z"]])%list.
Proof.
  apply (AddNode_then_sort_covers id id chainGraph).
  - apply rangeOrder_id.
  - apply rangeOrder_id.
  - vm_compute. reflexivity.
Defined.

Lemma SortByLayers_insertion_order_witness :
  ∃ out out',
    (SortByLayers id id mixedGraph).1 = Some out
    ∧ (SortByLayers reverse reverse mixedGraphReversed).1 = Some out'
    ∧ out.2 = out'.2
    ∧ Forall2 (≡ₚ) out.1 out'.1.
Proof.
  apply (SortByLayers_insertion_order id id reverse reverse
           mixedGraph mixedGraphReversed).
  - apply rangeOrder_id.
  - apply rangeOrder_id.
  - apply rangeOrder_reverse.
  - apply rangeOrder_reverse.
  - apply (bool_decide_unpack _). vm_compute. reflexivity.
  - symmetry. apply reverse_Permutation.
Defined.

Lemma validateLayerDependencies_silent_iff_witness :
  validateLayerDependencies id [["A"]; ["B"]] {[ "B" := ["A"] ]} = []
  ↔ ∀ nd ds, ({[ "B" := ["A"] ]} : gmap string (list string)) !! nd = Some ds →
      ∃ ni, lastLayer [["A"]; ["B"]] nd ni
            ∧ ∀ dep, dep ∈ ds → ∃ di, lastLayer [["A"]; ["B"]] dep di ∧ (di < ni)%nat.
Proof.
  apply (validateLayerDependencies_silent_iff id).
  apply rangeOrder_id.
Defined.

Lemma validateLayerDependencies_accepts_sort_witness :
  validateLayerDependencies reverse [["A"; "B"]; ["C"; "F"; "D"]; ["E"]]
    (dependsOn (buildIndex (nodes mixedGraph))) = [].
Proof.
  apply (validateLayerDependencies_accepts_sort id reverse reverse
           mixedGraph mixedGraph).
  - apply rangeOrder_id.
  - apply rangeOrder_reverse.
  - apply rangeOrder_reverse.
  - vm_compute. reflexivity.
  - reflexivity.
Defined.

Lemma AddNode_fresh_keeps_layers_witness :
  inLayer [["A"]; ["B"]; ["C"]] 1 "B"
  ↔ inLayer [["A"]; ["B"; "D"]; ["C"]] 1 "B".
Proof.
  apply (AddNode_fresh_keeps_layers id id id id chainGraph chainGraph
           (AddNode "D" ["A"] chainGraph).2 "D" ["A"]).
  - apply rangeOrder_id.
  - apply rangeOrder_id.
  - apply rangeOrder_id.
  - apply rangeOrder_id.
  - intros [b Hb]%allValues_identity. vm_compute in Hb. discriminate.
  - vm_compute. reflexivity.
  - vm_compute. reflexivity.
  - apply allValues_identity. vm_compute. by eexists.
Defined.

Lemma AddNode_fresh_same_error_witness :
  (SortByLayers id id cyclicGraph).1 = Some ([], Some ErrCyclicDependency)
  ↔ (SortByLayers reverse id (AddNode "D" ["A"] cyclicGraph).2).1
    = Some ([], Some ErrCyclicDependency).
Proof.
  apply (AddNode_fresh_same_error id id reverse id cyclicGraph "D" ["A"]).
  - apply rangeOrder_id.
  - apply rangeOrder_id.
  - apply rangeOrder_reverse.
  - apply rangeOrder_id.
  - intros [b Hb]%allValues_identity. vm_compute in Hb. discriminate.
  - intros Hin. apply list_elem_of_singleton in Hin. discriminate.
Defined.

Lemma SortByLayers_layers_maximal_witness :
  ∃ k, (k ≤ 1)%nat ∧ inLayer [["A"; "B"]; ["C"; "F"; "D"]; ["E"]] k "F".
Proof.
  apply (SortByLayers_layers_maximal id reverse mixedGraph mixedGraph).
  - apply rangeOrder_id.
  - apply rangeOrder_reverse.
  - vm_compute. reflexivity.
  - apply allValues_identity. vm_compute. by eexists.
  - intros d Hd. unfold kept in Hd. vm_compute in Hd.
    apply list_elem_of_singleton in Hd as ->.
    exists 0. split; [lia|]. exists ["A"; "B"]. split; [reflexivity|by left].
Defined.
